(** * Quadrature-point derivative kernels of MFEM ([fem/qinterp/grad.hpp])

    A shallow embedding of the three template kernels [Derivatives1D],
    [Derivatives2D] and [Derivatives3D] of the namespace
    [mfem::internal::quadrature_interpolator], together with the properties
    the specification states about them.

    Conventions of the embedding.
    - A [double] is an exact real number ([R]); rounding is not modelled.
    - An [int] that counts or indexes is a [nat]; overflow is not modelled.
    - A pointer to [double] is a buffer [nat -> R], addressed by its offset
      from the pointer, so that a store outside a declared shape is still a
      store the model can observe.
    - The kernels run with the host meaning of the device macros: [forall],
      [forall_2D_batch], [forall_3D] and [MFEM_FOREACH_THREAD] are
      sequential [for] loops from [0], [MFEM_SYNC_THREAD] does nothing and
      [MFEM_THREAD_ID(z)] is [0].
    - Every shared tile is a buffer of its own, as large as the indices
      need: the capacities [MD1], [MQ1] and the batch size [NBZ] only size
      the tiles in the source and are left out.  What a tile holds when the
      work on an element starts is unspecified in the source and is an
      argument, [smem], of the kernels here.
    - Reading a local array of three cells at an index that is not below
      three has no meaning in C++; the embedding returns [None] there.
    - Helpers of other files of the library ([Reshape], [LoadBG], [LoadX],
      [CalcInverse], [CalcLeftInverse]) are modelled from the
      specification and say so. *)

From Stdlib Require Import Reals Lra Lia List Arith PeanoNat Bool Classical.
From Stdlib Require Import FunctionalExtensionality.
Import ListNotations.

Set Implicit Arguments.

(** ** Loops *)

(** [for (int k = 0; k < n; k++) s = body k s]. *)
Fixpoint for_loop {S : Type} (n : nat) (body : nat -> S -> S) (s : S) : S :=
  match n with
  | 0 => s
  | S k => body k (for_loop k body s)
  end.

(** The same loop for a body that may go wrong. *)
Fixpoint forM {S : Type} (n : nat) (body : nat -> S -> option S) (s : S)
  : option S :=
  match n with
  | 0 => Some s
  | S k => match forM k body s with
           | Some s' => body k s'
           | None => None
           end
  end.

Definition bind {A B : Type} (m : option A) (k : A -> option B) : option B :=
  match m with
  | Some a => k a
  | None => None
  end.

Notation "x <- m ;; k" := (bind m (fun x => k))
  (at level 61, m at next level, right associativity).

(** [s = 0.0; for (k < n) s += f(k)]: the accumulation order of the source. *)
Definition sum_upto (n : nat) (f : nat -> R) : R :=
  for_loop n (fun k acc => (acc + f k)%R) 0%R.

(** ** Buffers and tensor views *)

Definition buf := nat -> R.

(** [p[k] = v]. *)
Definition upd (m : buf) (k : nat) (v : R) : buf :=
  fun i => if Nat.eqb i k then v else m i.

(** Modelled from the spec: the offset computed by [DeviceTensor::operator()]
    of [linalg/dtensor.hpp], which is not among the sources.  The layouts of
    the data model name their indices from the fastest one, so the first index
    has stride one and the stride of an index is the product of the sizes
    before it; the size of the last index is not used. *)
Fixpoint TensorInd (sizes idx : list nat) : nat :=
  match sizes, idx with
  | n :: ns, i :: js => i + n * TensorInd ns js
  | _, _ => 0
  end.

(** Modelled from the spec: [Reshape] of [linalg/dtensor.hpp], the view of a
    buffer as a tensor of the given sizes, here for reading. *)
Definition Reshape (p : buf) (sizes : list nat) (idx : list nat) : R :=
  p (TensorInd sizes idx).

(** The multi-index stored at an offset (the inverse of [TensorInd]). *)
Fixpoint TensorDec (sizes : list nat) (p : nat) : list nat :=
  match sizes with
  | [] => []
  | n :: ns =>
      match ns with
      | [] => [p]
      | _ :: _ => (p mod n) :: TensorDec ns (p / n)
      end
  end.

(** Every index is below its size. *)
Fixpoint in_shape (sizes idx : list nat) : Prop :=
  match sizes, idx with
  | [], [] => True
  | n :: ns, i :: js => i < n /\ in_shape ns js
  | _, _ => False
  end.

Definition volume (sizes : list nat) : nat := fold_right Nat.mul 1 sizes.

(** [T_X ? T_X : x]. *)
Definition pick (T x : nat) : nat := if Nat.eqb T 0 then x else T.

Inductive QVectorLayout : Type := byNODES | byVDIM.

(** ** Closed-form inverses ([linalg/kernels.hpp]) *)

Definition cell (a : list R) (k : nat) : R := nth k a 0%R.

Arguments cell a k%_nat.

Notation "a .[ k ]" := (cell a k) (at level 1, left associativity,
  format "a .[ k ]").

Local Open Scope R_scope.

(** Modelled from the spec: [kernels::CalcInverse<2>], which is not among the
    sources: the closed-form inverse of a 2x2 matrix by cofactors, the
    adjugate divided by the determinant.  Input and result are stored by
    columns, entry (r,c) in cell [r + 2*c], as the kernels fill [Jloc]. *)
Definition CalcInverse2 (data : list R) : list R :=
  let d := data.[0] * data.[3] - data.[1] * data.[2] in
  let t := 1 / d in
  [ data.[3] * t; - data.[1] * t; - data.[2] * t; data.[0] * t ].

(** Modelled from the spec: [kernels::CalcInverse<3>], which is not among the
    sources: the closed-form inverse of a 3x3 matrix by cofactors, stored by
    columns, entry (r,c) in cell [r + 3*c]. *)
Definition CalcInverse3 (data : list R) : list R :=
  let d := data.[0] * (data.[4] * data.[8] - data.[5] * data.[7])
         + data.[3] * (data.[2] * data.[7] - data.[1] * data.[8])
         + data.[6] * (data.[1] * data.[5] - data.[2] * data.[4]) in
  let t := 1 / d in
  [ (data.[4] * data.[8] - data.[5] * data.[7]) * t;
    (data.[2] * data.[7] - data.[1] * data.[8]) * t;
    (data.[1] * data.[5] - data.[2] * data.[4]) * t;
    (data.[5] * data.[6] - data.[3] * data.[8]) * t;
    (data.[0] * data.[8] - data.[2] * data.[6]) * t;
    (data.[2] * data.[3] - data.[0] * data.[5]) * t;
    (data.[3] * data.[7] - data.[4] * data.[6]) * t;
    (data.[1] * data.[6] - data.[0] * data.[7]) * t;
    (data.[0] * data.[4] - data.[1] * data.[3]) * t ].

(** Modelled from the spec: [kernels::CalcLeftInverse<2,1>], which is not
    among the sources: the left inverse [(Jt J)^-1 Jt] of a 2x1 matrix, a row
    of two cells. *)
Definition CalcLeftInverse21 (d : list R) : list R :=
  let t := 1 / (d.[0] * d.[0] + d.[1] * d.[1]) in
  [ d.[0] * t; d.[1] * t ].

(** Modelled from the spec: [kernels::CalcLeftInverse<3,1>], which is not
    among the sources: the left inverse [(Jt J)^-1 Jt] of a 3x1 matrix, a row
    of three cells. *)
Definition CalcLeftInverse31 (d : list R) : list R :=
  let t := 1 / (d.[0] * d.[0] + d.[1] * d.[1] + d.[2] * d.[2]) in
  [ d.[0] * t; d.[1] * t; d.[2] * t ].

(** Modelled from the spec: [kernels::CalcLeftInverse<3,2>], which is not
    among the sources: the left inverse [(Jt J)^-1 Jt] of a 3x2 matrix by the
    normal equations in closed form.  The input holds entry (r,c) in cell
    [r + 3*c]; the result is a 2x3 matrix stored by columns, entry (i,k) in
    cell [i + 2*k]. *)
Definition CalcLeftInverse32 (d : list R) : list R :=
  let e := d.[0] * d.[0] + d.[1] * d.[1] + d.[2] * d.[2] in
  let g := d.[3] * d.[3] + d.[4] * d.[4] + d.[5] * d.[5] in
  let f := d.[0] * d.[3] + d.[1] * d.[4] + d.[2] * d.[5] in
  let t := 1 / (e * g - f * f) in
  let e := e * t in
  let g := g * t in
  let f := f * t in
  [ d.[0] * g - d.[3] * f; d.[3] * e - d.[0] * f;
    d.[1] * g - d.[4] * f; d.[4] * e - d.[1] * f;
    d.[2] * g - d.[5] * f; d.[5] * e - d.[2] * f ].

(** ** Derivatives1D *)

Definition Derivatives1D (Q_LAYOUT : QVectorLayout) (GRAD_PHYS : bool)
    (NE : nat) (g_ j_ x_ y_ : buf) (sdim vdim d1d q1d : nat) : option buf :=
  let g := Reshape g_ [q1d; d1d] in
  let j := Reshape j_ [q1d; sdim; NE] in
  let x := Reshape x_ [d1d; vdim; NE] in
  let y := match Q_LAYOUT with
           | byNODES => TensorInd [q1d; vdim; sdim; NE]
           | byVDIM => TensorInd [vdim; sdim; q1d; NE]
           end in
  forM NE (fun e y_ =>
    forM vdim (fun c y_ =>
      forM q1d (fun q y_ =>
        let du0 := for_loop d1d (fun d du0 => du0 + g [q; d] * x [d; c; e]) 0 in
        let du :=
          if GRAD_PHYS then
            if Nat.eqb sdim 1 then [du0 / j [q; 0; e]%nat; 0; 0]
            else if Nat.eqb sdim 2 then
              let Jloc := [j [q; 0; e]%nat; j [q; 1; e]%nat] in
              let Jinv := CalcLeftInverse21 Jloc in
              let U := Jinv.[0] * du0 in
              let V := Jinv.[1] * du0 in
              [U; V; 0]
            else
              let Jloc := [j [q; 0; e]%nat; j [q; 1; e]%nat; j [q; 2; e]%nat] in
              let Jinv := CalcLeftInverse31 Jloc in
              let U := Jinv.[0] * du0 in
              let V := Jinv.[1] * du0 in
              let W := Jinv.[2] * du0 in
              [U; V; W]
          else [du0; 0; 0] in
        forM sdim (fun d y_ =>
          v <- nth_error du d ;;
          Some (upd y_ (match Q_LAYOUT with
                        | byVDIM => y [c; d; q; e]
                        | byNODES => y [q; c; d; e]
                        end) v)) y_) y_) y_) y_.

(** ** Derivatives2D *)

(** Modelled from the spec: [kernels::internal::LoadBG] of [fem/kernels.hpp],
    which is not among the sources: the basis tables are loaded into the
    shared tiles, viewed as (dofs x quadrature points) matrices [B] and [G]
    with [B(d,q) = b(q,d)] and [G(d,q) = g(q,d)]. *)
Definition LoadBG (D1D Q1D : nat) (b g : list nat -> R) (sBG : buf * buf)
  : buf * buf :=
  for_loop D1D (fun d sBG =>
    for_loop Q1D (fun q sBG =>
      (upd (fst sBG) (TensorInd [D1D; Q1D] [d; q]) (b [q; d]),
       upd (snd sBG) (TensorInd [D1D; Q1D] [d; q]) (g [q; d]))) sBG) sBG.

(** Modelled from the spec: the two-dimensional [kernels::internal::LoadX] of
    [fem/kernels.hpp], which is not among the sources: the nodal values of
    component [c] of element [e] are loaded into the shared tile,
    [X(dx,dy) = x(dx,dy,c,e)]. *)
Definition LoadX2D (e D1D c : nat) (x : list nat -> R) (sX : buf) : buf :=
  for_loop D1D (fun dy sX =>
    for_loop D1D (fun dx sX =>
      upd sX (TensorInd [D1D; D1D] [dx; dy]) (x [dx; dy; c; e])) sX) sX.

(** The shared tiles of the two-dimensional kernel: [XY], [s_DQ[0]] and
    [s_DQ[1]]. *)
Record tiles2D : Type := mkTiles2D { s_X : buf; s_DQ0 : buf; s_DQ1 : buf }.

(** Lines 148-163, the first pass: the contraction over [dx], with the basis
    values into [DQ0] and with the basis derivatives into [DQ1]. *)
Definition Derivatives2D_pass1 (D1D Q1D : nat) (X B G : list nat -> R)
    (s_DQ : buf * buf) : buf * buf :=
  for_loop D1D (fun dy s_DQ =>
    for_loop Q1D (fun qx s_DQ =>
      let uv := for_loop D1D (fun dx uv =>
                  let input := X [dx; dy] in
                  (fst uv + input * B [dx; qx],
                   snd uv + input * G [dx; qx])) (0, 0) in
      (upd (fst s_DQ) (TensorInd [D1D; Q1D] [dy; qx]) (fst uv),
       upd (snd s_DQ) (TensorInd [D1D; Q1D] [dy; qx]) (snd uv))) s_DQ) s_DQ.

(** Lines 169-207: the local array [du] at the quadrature point [(qx,qy)],
    the contraction over [dy] and then the physical transform. *)
Definition Derivatives2D_du (GRAD_PHYS : bool) (SDIM D1D : nat)
    (j DQ0 DQ1 B G : list nat -> R) (e qx qy : nat) : list R :=
  let du := for_loop D1D (fun dy du =>
              (fst du + DQ1 [dy; qx] * B [dy; qy],
               snd du + DQ0 [dy; qx] * G [dy; qy])) (0, 0) in
  if GRAD_PHYS then
    if Nat.eqb SDIM 2 then
      let Jloc := [j [qx; qy; 0; 0; e]%nat; j [qx; qy; 1; 0; e]%nat;
                   j [qx; qy; 0; 1; e]%nat; j [qx; qy; 1; 1; e]%nat] in
      let Jinv := CalcInverse2 Jloc in
      let U := Jinv.[0] * fst du + Jinv.[1] * snd du in
      let V := Jinv.[2] * fst du + Jinv.[3] * snd du in
      [U; V; 0]
    else
      let Jloc := [j [qx; qy; 0; 0; e]%nat; j [qx; qy; 1; 0; e]%nat;
                   j [qx; qy; 2; 0; e]%nat; j [qx; qy; 0; 1; e]%nat;
                   j [qx; qy; 1; 1; e]%nat; j [qx; qy; 2; 1; e]%nat] in
      let Jinv := CalcLeftInverse32 Jloc in
      let U := Jinv.[0] * fst du + Jinv.[1] * snd du in
      let V := Jinv.[2] * fst du + Jinv.[3] * snd du in
      let W := Jinv.[4] * fst du + Jinv.[5] * snd du in
      [U; V; W]
  else [fst du; snd du; 0].

(** [smem] is the content of the shared tiles, which the source leaves
    uninitialised, when the work on an element starts. *)
Definition Derivatives2D (Q_LAYOUT : QVectorLayout) (GRAD_PHYS : bool)
    (T_VDIM T_D1D T_Q1D : nat)
    (NE : nat) (b_ g_ j_ x_ y_ : buf) (sdim vdim d1d q1d : nat)
    (smem : buf) : option buf :=
  let D1D := pick T_D1D d1d in
  let Q1D := pick T_Q1D q1d in
  let VDIM := pick T_VDIM vdim in
  let SDIM := if GRAD_PHYS then sdim else 2%nat in
  let b := Reshape b_ [Q1D; D1D] in
  let g := Reshape g_ [Q1D; D1D] in
  let j := Reshape j_ [Q1D; Q1D; SDIM; 2; NE]%nat in
  let x := Reshape x_ [D1D; D1D; VDIM; NE] in
  let y := match Q_LAYOUT with
           | byNODES => TensorInd [Q1D; Q1D; VDIM; SDIM; NE]
           | byVDIM => TensorInd [VDIM; SDIM; Q1D; Q1D; NE]
           end in
  forM NE (fun e y_ =>
    let BG := LoadBG D1D Q1D b g (smem, smem) in
    let B := Reshape (fst BG) [D1D; Q1D] in
    let G := Reshape (snd BG) [D1D; Q1D] in
    st <- forM VDIM (fun c st =>
      let sX := LoadX2D e D1D c x (s_X (fst st)) in
      let X := Reshape sX [D1D; D1D] in
      let s_DQ := Derivatives2D_pass1 D1D Q1D X B G
                    (s_DQ0 (fst st), s_DQ1 (fst st)) in
      let DQ0 := Reshape (fst s_DQ) [D1D; Q1D] in
      let DQ1 := Reshape (snd s_DQ) [D1D; Q1D] in
      y_ <- forM Q1D (fun qy y_ =>
        forM Q1D (fun qx y_ =>
          let du := Derivatives2D_du GRAD_PHYS SDIM D1D j DQ0 DQ1 B G
                      e qx qy in
          forM SDIM (fun d y_ =>
            v <- nth_error du d ;;
            Some (upd y_ (match Q_LAYOUT with
                          | byVDIM => y [c; d; qx; qy; e]
                          | byNODES => y [qx; qy; c; d; e]
                          end) v)) y_) y_) (snd st) ;;
      Some (mkTiles2D sX (fst s_DQ) (snd s_DQ), y_))
      (mkTiles2D smem smem smem, y_) ;;
    Some (snd st)) y_.

(** ** Derivatives3D *)

(** Modelled from the spec: the three-dimensional [kernels::internal::LoadX]
    of [fem/kernels.hpp], which is not among the sources:
    [X(dx,dy,dz) = x(dx,dy,dz,c,e)]. *)
Definition LoadX3D (e D1D c : nat) (x : list nat -> R) (sX : buf) : buf :=
  for_loop D1D (fun dz sX =>
    for_loop D1D (fun dy sX =>
      for_loop D1D (fun dx sX =>
        upd sX (TensorInd [D1D; D1D; D1D] [dx; dy; dz])
               (x [dx; dy; dz; c; e])) sX) sX) sX.

(** The shared tiles of the three-dimensional kernel: [sm0[2]], [sm0[0..1]]
    and [sm1[0..2]]. *)
Record tiles3D : Type := mkTiles3D
  { t_X : buf; t_DDQ : buf * buf; t_DQQ : buf * buf * buf }.

(** Lines 277-295, the first pass: the contraction over [dx]. *)
Definition Derivatives3D_pass1 (D1D Q1D : nat) (X B G : list nat -> R)
    (s_DDQ : buf * buf) : buf * buf :=
  for_loop D1D (fun dz s => for_loop D1D (fun dy s =>
    for_loop Q1D (fun qx s =>
      let uv := for_loop D1D (fun dx uv =>
                  let input := X [dx; dy; dz] in
                  (fst uv + input * B [dx; qx],
                   snd uv + input * G [dx; qx])) (0, 0) in
      (upd (fst s) (TensorInd [D1D; D1D; Q1D] [dz; dy; qx]) (fst uv),
       upd (snd s) (TensorInd [D1D; D1D; Q1D] [dz; dy; qx]) (snd uv)))
    s) s) s_DDQ.

(** Lines 297-317, the second pass: the contraction over [dy]. *)
Definition Derivatives3D_pass2 (D1D Q1D : nat) (DDQ0 DDQ1 B G : list nat -> R)
    (s_DQQ : buf * buf * buf) : buf * buf * buf :=
  for_loop D1D (fun dz s => for_loop Q1D (fun qy s =>
    for_loop Q1D (fun qx s =>
      let uvw := for_loop D1D (fun dy uvw =>
                   (fst (fst uvw) + DDQ1 [dz; dy; qx] * B [dy; qy],
                    snd (fst uvw) + DDQ0 [dz; dy; qx] * G [dy; qy],
                    snd uvw + DDQ0 [dz; dy; qx] * B [dy; qy]))
                   (0, 0, 0) in
      (upd (fst (fst s)) (TensorInd [D1D; Q1D; Q1D] [dz; qy; qx])
           (fst (fst uvw)),
       upd (snd (fst s)) (TensorInd [D1D; Q1D; Q1D] [dz; qy; qx])
           (snd (fst uvw)),
       upd (snd s) (TensorInd [D1D; Q1D; Q1D] [dz; qy; qx]) (snd uvw)))
    s) s) s_DQQ.

(** Lines 325-349: [u], [v] and [w] at the quadrature point [(qx,qy,qz)],
    the contraction over [dz] and then the physical transform. *)
Definition Derivatives3D_uvw (GRAD_PHYS : bool) (D1D : nat)
    (j DQQ0 DQQ1 DQQ2 B G : list nat -> R) (e qx qy qz : nat) : R * R * R :=
  let uvw := for_loop D1D (fun dz uvw =>
               (fst (fst uvw) + DQQ0 [dz; qy; qx] * B [dz; qz],
                snd (fst uvw) + DQQ1 [dz; qy; qx] * B [dz; qz],
                snd uvw + DQQ2 [dz; qy; qx] * G [dz; qz])) (0, 0, 0) in
  let u := fst (fst uvw) in
  let v := snd (fst uvw) in
  let w := snd uvw in
  if GRAD_PHYS then
    let Jloc :=
      [j [qx; qy; qz; 0; 0; e]%nat; j [qx; qy; qz; 1; 0; e]%nat;
       j [qx; qy; qz; 2; 0; e]%nat; j [qx; qy; qz; 0; 1; e]%nat;
       j [qx; qy; qz; 1; 1; e]%nat; j [qx; qy; qz; 2; 1; e]%nat;
       j [qx; qy; qz; 0; 2; e]%nat; j [qx; qy; qz; 1; 2; e]%nat;
       j [qx; qy; qz; 2; 2; e]%nat] in
    let Jinv := CalcInverse3 Jloc in
    let U := Jinv.[0] * u + Jinv.[1] * v + Jinv.[2] * w in
    let V := Jinv.[3] * u + Jinv.[4] * v + Jinv.[5] * w in
    let W := Jinv.[6] * u + Jinv.[7] * v + Jinv.[8] * w in
    (U, V, W)
  else (u, v, w).

Definition Derivatives3D (Q_LAYOUT : QVectorLayout) (GRAD_PHYS : bool)
    (T_VDIM T_D1D T_Q1D : nat)
    (NE : nat) (b_ g_ j_ x_ y_ : buf) (vdim d1d q1d : nat)
    (smem : buf) : buf :=
  let D1D := pick T_D1D d1d in
  let Q1D := pick T_Q1D q1d in
  let VDIM := pick T_VDIM vdim in
  let b := Reshape b_ [Q1D; D1D] in
  let g := Reshape g_ [Q1D; D1D] in
  let j := Reshape j_ [Q1D; Q1D; Q1D; 3; 3; NE]%nat in
  let x := Reshape x_ [D1D; D1D; D1D; VDIM; NE] in
  let y := match Q_LAYOUT with
           | byNODES => TensorInd [Q1D; Q1D; Q1D; VDIM; 3; NE]%nat
           | byVDIM => TensorInd [VDIM; 3; Q1D; Q1D; Q1D; NE]%nat
           end in
  for_loop NE (fun e y_ =>
    let BG := LoadBG D1D Q1D b g (smem, smem) in
    let B := Reshape (fst BG) [D1D; Q1D] in
    let G := Reshape (snd BG) [D1D; Q1D] in
    snd (for_loop VDIM (fun c st =>
      let sX := LoadX3D e D1D c x (t_X (fst st)) in
      let X := Reshape sX [D1D; D1D; D1D] in
      let s_DDQ := Derivatives3D_pass1 D1D Q1D X B G (t_DDQ (fst st)) in
      let DDQ0 := Reshape (fst s_DDQ) [D1D; D1D; Q1D] in
      let DDQ1 := Reshape (snd s_DDQ) [D1D; D1D; Q1D] in
      let s_DQQ := Derivatives3D_pass2 D1D Q1D DDQ0 DDQ1 B G
                     (t_DQQ (fst st)) in
      let DQQ0 := Reshape (fst (fst s_DQQ)) [D1D; Q1D; Q1D] in
      let DQQ1 := Reshape (snd (fst s_DQQ)) [D1D; Q1D; Q1D] in
      let DQQ2 := Reshape (snd s_DQQ) [D1D; Q1D; Q1D] in
      let y_ :=
        for_loop Q1D (fun qz y_ => for_loop Q1D (fun qy y_ =>
          for_loop Q1D (fun qx y_ =>
            let uvw := Derivatives3D_uvw GRAD_PHYS D1D j DQQ0 DQQ1 DQQ2 B G
                         e qx qy qz in
            let u := fst (fst uvw) in
            let v := snd (fst uvw) in
            let w := snd uvw in
            match Q_LAYOUT with
            | byVDIM =>
                let y_ := upd y_ (y [c; 0; qx; qy; qz; e]%nat) u in
                let y_ := upd y_ (y [c; 1; qx; qy; qz; e]%nat) v in
                upd y_ (y [c; 2; qx; qy; qz; e]%nat) w
            | byNODES =>
                let y_ := upd y_ (y [qx; qy; qz; c; 0; e]%nat) u in
                let y_ := upd y_ (y [qx; qy; qz; c; 1; e]%nat) v in
                upd y_ (y [qx; qy; qz; c; 2; e]%nat) w
            end) y_) y_) (snd st) in
      (mkTiles3D sX s_DDQ s_DQQ, y_))
      (mkTiles3D smem (smem, smem) (smem, smem, smem), y_))) y_.

(** ** Vocabulary of the properties *)

(** A state transformer [F] fills the cells [W] of the buffer that [get]
    selects with the values [v] and leaves its other cells alone. *)
Definition fills {S : Type} (get : S -> buf) (W : nat -> Prop) (v : nat -> R)
    (F : S -> S) : Prop :=
  forall s p, (W p -> get (F s) p = v p) /\ (~ W p -> get (F s) p = get s p).

(** The same for a transformer that may go wrong: it does not. *)
Definition fillsM {S : Type} (get : S -> buf) (W : nat -> Prop)
    (v : nat -> R) (F : S -> option S) : Prop :=
  forall s, exists s', F s = Some s' /\
    forall p, (W p -> get s' p = v p) /\ (~ W p -> get s' p = get s p).

(** The order of the sizes and of the indices of the output in each layout,
    from the quadrature indices [qs], the component and the direction. *)
Definition lay (L : QVectorLayout) (qs : list nat) (c d e : nat) : list nat :=
  match L with
  | byNODES => qs ++ [c; d; e]
  | byVDIM => [c; d] ++ qs ++ [e]
  end.

(** The indices at an offset of the output, back in the order of [byNODES]. *)
Definition unlay (L : QVectorLayout) (nq : nat) (l : list nat) : list nat :=
  match L with
  | byNODES => l
  | byVDIM => firstn nq (skipn 2 l) ++ firstn 2 l ++ skipn (2 + nq) l
  end.

(** The value of an output cell, from the value at its indices. *)
Definition at_offset (L : QVectorLayout) (nq : nat) (sizes : list nat)
    (val : list nat -> R) (p : nat) : R :=
  val (unlay L nq (TensorDec sizes p)).

(** *** Derivatives1D *)

(** The dot product of row [q] of the derivative table with the nodal values
    of component [c] of element [e]. *)
Definition dot1D (g_ x_ : buf) (vdim d1d q1d NE : nat) (e c q : nat) : R :=
  sum_upto d1d (fun d =>
    Reshape g_ [q1d; d1d] [q; d] * Reshape x_ [d1d; vdim; NE] [d; c; e]).

(** The local array [du] of [Derivatives1D] when it is stored. *)
Definition du1D (GRAD_PHYS : bool) (NE : nat) (g_ j_ x_ : buf)
    (sdim vdim d1d q1d : nat) (e c q : nat) : list R :=
  let j := Reshape j_ [q1d; sdim; NE] in
  let du0 := dot1D g_ x_ vdim d1d q1d NE e c q in
  if GRAD_PHYS then
    if Nat.eqb sdim 1 then [du0 / j [q; 0; e]%nat; 0; 0]
    else if Nat.eqb sdim 2 then
      let Jinv := CalcLeftInverse21 [j [q; 0; e]%nat; j [q; 1; e]%nat] in
      [Jinv.[0] * du0; Jinv.[1] * du0; 0]
    else
      let Jinv := CalcLeftInverse31
                    [j [q; 0; e]%nat; j [q; 1; e]%nat; j [q; 2; e]%nat] in
      [Jinv.[0] * du0; Jinv.[1] * du0; Jinv.[2] * du0]
  else [du0; 0; 0].

Definition val1D (GRAD_PHYS : bool) (NE : nat) (g_ j_ x_ : buf)
    (sdim vdim d1d q1d : nat) (idx : list nat) : R :=
  match idx with
  | [q; c; d; e] => (du1D GRAD_PHYS NE g_ j_ x_ sdim vdim d1d q1d e c q).[d]
  | _ => 0
  end.

(** *** Derivatives2D *)

(** The two reference derivatives at a quadrature point, in the order the
    two passes contract: first over [dx], then over [dy]. *)
Definition ref2D_u (b_ g_ x_ : buf) (VDIM D1D Q1D NE : nat)
    (e c qx qy : nat) : R :=
  sum_upto D1D (fun dy =>
    sum_upto D1D (fun dx =>
      Reshape x_ [D1D; D1D; VDIM; NE] [dx; dy; c; e]
      * Reshape g_ [Q1D; D1D] [qx; dx])
    * Reshape b_ [Q1D; D1D] [qy; dy]).

Definition ref2D_v (b_ g_ x_ : buf) (VDIM D1D Q1D NE : nat)
    (e c qx qy : nat) : R :=
  sum_upto D1D (fun dy =>
    sum_upto D1D (fun dx =>
      Reshape x_ [D1D; D1D; VDIM; NE] [dx; dy; c; e]
      * Reshape b_ [Q1D; D1D] [qx; dx])
    * Reshape g_ [Q1D; D1D] [qy; dy]).

(** The local array [du] of [Derivatives2D] when it is stored. *)
Definition du2D (GRAD_PHYS : bool) (NE : nat) (b_ g_ j_ x_ : buf)
    (SDIM VDIM D1D Q1D : nat) (e c qx qy : nat) : list R :=
  let j := Reshape j_ [Q1D; Q1D; SDIM; 2; NE]%nat in
  let u := ref2D_u b_ g_ x_ VDIM D1D Q1D NE e c qx qy in
  let v := ref2D_v b_ g_ x_ VDIM D1D Q1D NE e c qx qy in
  if GRAD_PHYS then
    if Nat.eqb SDIM 2 then
      let Jinv := CalcInverse2
                    [j [qx; qy; 0; 0; e]%nat; j [qx; qy; 1; 0; e]%nat;
                     j [qx; qy; 0; 1; e]%nat; j [qx; qy; 1; 1; e]%nat] in
      [Jinv.[0] * u + Jinv.[1] * v; Jinv.[2] * u + Jinv.[3] * v; 0]
    else
      let Jinv := CalcLeftInverse32
                    [j [qx; qy; 0; 0; e]%nat; j [qx; qy; 1; 0; e]%nat;
                     j [qx; qy; 2; 0; e]%nat; j [qx; qy; 0; 1; e]%nat;
                     j [qx; qy; 1; 1; e]%nat; j [qx; qy; 2; 1; e]%nat] in
      [Jinv.[0] * u + Jinv.[1] * v; Jinv.[2] * u + Jinv.[3] * v;
       Jinv.[4] * u + Jinv.[5] * v]
  else [u; v; 0].

Definition val2D (GRAD_PHYS : bool) (NE : nat) (b_ g_ j_ x_ : buf)
    (SDIM VDIM D1D Q1D : nat) (idx : list nat) : R :=
  match idx with
  | [qx; qy; c; d; e] =>
      (du2D GRAD_PHYS NE b_ g_ j_ x_ SDIM VDIM D1D Q1D e c qx qy).[d]
  | _ => 0
  end.

(** *** Derivatives3D *)





(** *** Entries of the output *)

(** The entry of the output of [Derivatives1D] for quadrature point [q],
    component [c], direction [d] and element [e], in the layout [L]. *)
Definition out1D (L : QVectorLayout) (q1d vdim sdim NE : nat) (y : buf)
    (q c d e : nat) : R :=
  y (TensorInd (lay L [q1d] vdim sdim NE) (lay L [q] c d e)).

Definition out2D (L : QVectorLayout) (Q1D VDIM SDIM NE : nat) (y : buf)
    (qx qy c d e : nat) : R :=
  y (TensorInd (lay L [Q1D; Q1D] VDIM SDIM NE) (lay L [qx; qy] c d e)).


(** *** Direct evaluation of the tensor contraction *)

(** The gradient without sum factorization: one sum over all pairs of dofs
    of the product of a table entry per axis and the nodal value.  The tables
    are read as the kernels load them, [F(d,q) = f(q,d)]. *)
Definition direct2D (fx fy x_ : buf) (VDIM D1D Q1D NE : nat)
    (e c qx qy : nat) : R :=
  sum_upto D1D (fun dx => sum_upto D1D (fun dy =>
    Reshape fx [Q1D; D1D] [qx; dx] * Reshape fy [Q1D; D1D] [qy; dy]
    * Reshape x_ [D1D; D1D; VDIM; NE] [dx; dy; c; e])).


(** *** Small matrices *)

Definition matrix := nat -> nat -> R.

Definition mmul (n : nat) (A B : matrix) : matrix :=
  fun i k => sum_upto n (fun l => A i l * B l k).

Definition mtrans (A : matrix) : matrix := fun i k => A k i.


Definition det2 (A : matrix) : R :=
  A 0%nat 0%nat * A 1%nat 1%nat - A 0%nat 1%nat * A 1%nat 0%nat.

Definition det3 (A : matrix) : R :=
  A 0%nat 0%nat
  * (A 1%nat 1%nat * A 2%nat 2%nat - A 1%nat 2%nat * A 2%nat 1%nat)
  - A 0%nat 1%nat
    * (A 1%nat 0%nat * A 2%nat 2%nat - A 1%nat 2%nat * A 2%nat 0%nat)
  + A 0%nat 2%nat
    * (A 1%nat 0%nat * A 2%nat 1%nat - A 1%nat 1%nat * A 2%nat 0%nat).

(** The matrix with [rows] rows that a local array holds by columns. *)
Definition by_columns (rows : nat) (a : list R) : matrix :=
  fun r c => a.[r + rows * c].

(** The inverse of a 2x2 matrix. *)
Definition minv2 (A : matrix) : matrix :=
  fun i k =>
    match i, k with
    | 0%nat, 0%nat => A 1%nat 1%nat / det2 A
    | 0%nat, 1%nat => - A 0%nat 1%nat / det2 A
    | 1%nat, 0%nat => - A 1%nat 0%nat / det2 A
    | 1%nat, 1%nat => A 0%nat 0%nat / det2 A
    | _, _ => 0
    end.

(** The left pseudo-inverse [(Jt J)^-1 Jt] of a 3x2 matrix, a 2x3 matrix. *)
Definition pinv32 (J : matrix) : matrix :=
  mmul 2 (minv2 (mmul 3 (mtrans J) J)) (mtrans J).


(** *** Sample inputs *)

Definition buf_of (l : list R) : buf := fun i => nth i l 0.

Definition ones : buf := fun _ => 1.

(** A derivative table with two quadrature points and two dofs whose rows
    sum to zero, [g(q,0) = -1] and [g(q,1) = 1]. *)
Definition g_lin : buf := buf_of [-1; -1; 1; 1].

(** The values of the linear basis at the quadrature points 1/4 and 3/4,
    [b(q,0) = 1 - xi_q] and [b(q,1) = xi_q]. *)
Definition b_lin : buf := buf_of [3 / 4; 1 / 4; 1 / 4; 3 / 4].


(** Identity Jacobians, stored by columns. *)
Definition j_id2 : buf := buf_of [1; 0; 0; 1].


(** *** Vocabulary of the further properties *)

(** The field [a * x1 + x2], cell by cell. *)
Definition axpy (a : R) (x1 x2 : buf) : buf := fun i => a * x1 i + x2 i.




(** * Properties *)

(** ** Loops and sums *)

Lemma forM_Some (S : Type) (n : nat) (body : nat -> S -> S) (s : S) :
  forM n (fun k s => Some (body k s)) s = Some (for_loop n body s).
Proof.
  induction n as [|n IH]; simpl; [reflexivity|].
  rewrite IH. reflexivity.
Qed.

Lemma for_loop_ext (S : Type) (n : nat) (f g : nat -> S -> S) (s : S) :
  (forall k s, (k < n)%nat -> f k s = g k s) ->
  for_loop n f s = for_loop n g s.
Proof.
  induction n as [|n IH]; intros H; simpl; [reflexivity|].
  rewrite IH by (intros; apply H; lia). apply H. lia.
Qed.

Lemma sum_upto_S n f : sum_upto (S n) f = sum_upto n f + f n.
Proof. reflexivity. Qed.

Lemma sum_upto_ext n f g :
  (forall k, (k < n)%nat -> f k = g k) -> sum_upto n f = sum_upto n g.
Proof.
  induction n as [|n IH]; intros H; [reflexivity|].
  rewrite !sum_upto_S, IH by (intros; apply H; lia).
  rewrite H by lia. reflexivity.
Qed.

Lemma sum_upto_zero n f :
  (forall k, (k < n)%nat -> f k = 0) -> sum_upto n f = 0.
Proof.
  induction n as [|n IH]; intros H; [reflexivity|].
  rewrite sum_upto_S, IH, H by (intros; try apply H; lia). lra.
Qed.

Lemma sum_upto_mul_r n f c :
  sum_upto n (fun k => f k * c) = sum_upto n f * c.
Proof.
  induction n as [|n IH]; [unfold sum_upto; simpl; lra|].
  rewrite !sum_upto_S, IH. lra.
Qed.

Lemma sum_upto_mul_l n f c :
  sum_upto n (fun k => c * f k) = c * sum_upto n f.
Proof.
  induction n as [|n IH]; [unfold sum_upto; simpl; lra|].
  rewrite !sum_upto_S, IH. lra.
Qed.

Lemma sum_upto_plus n f g :
  sum_upto n (fun k => f k + g k) = sum_upto n f + sum_upto n g.
Proof.
  induction n as [|n IH]; [unfold sum_upto; simpl; lra|].
  rewrite !sum_upto_S, IH. lra.
Qed.

Lemma sum_upto_swap n m (f : nat -> nat -> R) :
  sum_upto n (fun i => sum_upto m (fun j => f i j)) =
  sum_upto m (fun j => sum_upto n (fun i => f i j)).
Proof.
  induction n as [|n IH].
  - symmetry. apply sum_upto_zero. reflexivity.
  - rewrite sum_upto_S, IH.
    rewrite <- sum_upto_plus. apply sum_upto_ext. intros j _.
    rewrite sum_upto_S. reflexivity.
Qed.

(** Two and three accumulators updated in one loop. *)
Lemma acc2 n f g :
  for_loop n (fun k (uv : R * R) => (fst uv + f k, snd uv + g k)) (0, 0) =
  (sum_upto n f, sum_upto n g).
Proof.
  induction n as [|n IH]; [reflexivity|].
  simpl. rewrite IH. reflexivity.
Qed.


(** ** Offsets and multi-indices *)

Lemma TensorInd_lt sizes : forall idx,
  in_shape sizes idx -> (TensorInd sizes idx < volume sizes)%nat.
Proof.
  induction sizes as [|n ns IH]; intros [|i js] H; simpl in *; try tauto.
  - lia.
  - destruct H as [Hi Hjs]. specialize (IH _ Hjs).
    change (volume (n :: ns)) with (n * volume ns)%nat.
    assert (n * (TensorInd ns js + 1) <= n * volume ns)%nat
      by (apply Nat.mul_le_mono_l; lia).
    lia.
Qed.

Lemma TensorDec_Ind sizes : forall idx,
  in_shape sizes idx -> TensorDec sizes (TensorInd sizes idx) = idx.
Proof.
  induction sizes as [|n ns IH]; intros [|i js] H; simpl in H; try tauto.
  destruct H as [Hi Hjs].
  destruct ns as [|n' ns].
  - destruct js; simpl in Hjs; [|tauto]. simpl. f_equal. lia.
  - specialize (IH _ Hjs).
    change (TensorInd (n :: n' :: ns) (i :: js))
      with (i + n * TensorInd (n' :: ns) js)%nat.
    change (TensorDec (n :: n' :: ns) (i + n * TensorInd (n' :: ns) js))
      with (((i + n * TensorInd (n' :: ns) js) mod n)
            :: TensorDec (n' :: ns) ((i + n * TensorInd (n' :: ns) js) / n)).
    replace ((i + n * TensorInd (n' :: ns) js) mod n)%nat with i.
    + replace ((i + n * TensorInd (n' :: ns) js) / n)%nat
        with (TensorInd (n' :: ns) js); [rewrite IH; reflexivity|].
      rewrite (Nat.mul_comm n), Nat.div_add by lia.
      rewrite Nat.div_small by lia. reflexivity.
    + rewrite (Nat.mul_comm n), Nat.Div0.mod_add.
      rewrite Nat.mod_small by lia. reflexivity.
Qed.

Lemma TensorInd_Dec sizes : forall p,
  sizes <> [] -> TensorInd sizes (TensorDec sizes p) = p.
Proof.
  induction sizes as [|n ns IH]; intros p H; [congruence|].
  destruct ns as [|n' ns].
  - simpl. lia.
  - change (TensorDec (n :: n' :: ns) p)
      with ((p mod n) :: TensorDec (n' :: ns) (p / n)).
    change (TensorInd (n :: n' :: ns) (p mod n :: TensorDec (n' :: ns) (p / n)))
      with (p mod n
            + n * TensorInd (n' :: ns) (TensorDec (n' :: ns) (p / n)))%nat.
    rewrite IH by congruence.
    pose proof (Nat.div_mod_eq p n). lia.
Qed.

Lemma TensorDec_shape sizes : forall p,
  (p < volume sizes)%nat -> sizes <> [] -> in_shape sizes (TensorDec sizes p).
Proof.
  induction sizes as [|n ns IH]; intros p H Hne; [congruence|].
  destruct ns as [|n' ns].
  - simpl in *. lia.
  - change (TensorDec (n :: n' :: ns) p)
      with ((p mod n) :: TensorDec (n' :: ns) (p / n)).
    change (volume (n :: n' :: ns)) with (n * volume (n' :: ns))%nat in H.
    assert (Hn : (0 < n)%nat) by (destruct n; [simpl in H|]; lia).
    split.
    + apply Nat.mod_upper_bound. lia.
    + apply IH; [|congruence].
      apply Nat.Div0.div_lt_upper_bound. exact H.
Qed.

(** ** Filling a buffer *)

Lemma fills_for (S : Type) (get : S -> buf) n W v (body : nat -> S -> S) :
  (forall k, (k < n)%nat -> fills get (W k) v (body k)) ->
  fills get (fun p => exists k, (k < n)%nat /\ W k p) v (for_loop n body).
Proof.
  induction n as [|n IH]; intros H s p; simpl.
  - split; [intros [k [Hk _]]; lia | reflexivity].
  - assert (IH' := IH (fun k Hk => H k (Nat.lt_lt_succ_r _ _ Hk)) s p).
    destruct (H n (Nat.lt_succ_diag_r n) (for_loop n body s) p) as [Hw Hn].
    destruct IH' as [IHw IHn].
    destruct (classic (W n p)) as [Wn|Wn].
    + split; [intros _; auto|].
      intros Hno. exfalso. apply Hno. exists n. split; [lia|assumption].
    + rewrite (Hn Wn). split.
      * intros [k [Hk Wk]]. apply IHw. exists k. split; [|assumption].
        assert (k <> n) by (intros ->; tauto). lia.
      * intros Hno. apply IHn. intros [k [Hk Wk]]. apply Hno.
        exists k. split; [lia|assumption].
Qed.

Lemma fillsM_for (S : Type) (get : S -> buf) n W v
    (body : nat -> S -> option S) :
  (forall k, (k < n)%nat -> fillsM get (W k) v (body k)) ->
  fillsM get (fun p => exists k, (k < n)%nat /\ W k p) v (forM n body).
Proof.
  induction n as [|n IH]; intros H s; simpl.
  - exists s. split; [reflexivity|]. intros p.
    split; [intros [k [Hk _]]; lia | reflexivity].
  - destruct (IH (fun k Hk => H k (Nat.lt_lt_succ_r _ _ Hk)) s)
      as [s1 [E1 IH']].
    rewrite E1.
    destruct (H n (Nat.lt_succ_diag_r n) s1) as [s2 [E2 H2]].
    exists s2. split; [assumption|]. intros p.
    destruct (H2 p) as [Hw Hn]. destruct (IH' p) as [IHw IHn].
    destruct (classic (W n p)) as [Wn|Wn].
    + split; [intros _; auto|].
      intros Hno. exfalso. apply Hno. exists n. split; [lia|assumption].
    + rewrite (Hn Wn). split.
      * intros [k [Hk Wk]]. apply IHw. exists k. split; [|assumption].
        assert (k <> n) by (intros ->; tauto). lia.
      * intros Hno. apply IHn. intros [k [Hk Wk]]. apply Hno.
        exists k. split; [lia|assumption].
Qed.


Lemma fillsM_ext (S : Type) (get : S -> buf) W W' v v'
    (F : S -> option S) :
  fillsM get W v F ->
  (forall p, W' p <-> W p) -> (forall p, W p -> v p = v' p) ->
  fillsM get W' v' F.
Proof.
  intros H HW Hv s. destruct (H s) as [s' [E H']].
  exists s'. split; [assumption|]. intros p.
  destruct (H' p) as [Hw Hn]. split.
  - intros Hp. apply HW in Hp. rewrite <- Hv by assumption. auto.
  - intros Hp. apply Hn. intros Hq. apply Hp, HW, Hq.
Qed.

Lemma upd_same m k v : upd m k v k = v.
Proof. unfold upd. rewrite Nat.eqb_refl. reflexivity. Qed.

Lemma upd_other m k v p : p <> k -> upd m k v p = m p.
Proof.
  intros H. unfold upd.
  destruct (Nat.eqb_spec p k); [contradiction|reflexivity].
Qed.

(** ** Layouts *)

Lemma at_offset_lay L qs c d e qsz vdim sdim NE val :
  in_shape (lay L qsz vdim sdim NE) (lay L qs c d e) ->
  at_offset L (length qs) (lay L qsz vdim sdim NE) val
    (TensorInd (lay L qsz vdim sdim NE) (lay L qs c d e)) =
  val (qs ++ [c; d; e]).
Proof.
  intros H. unfold at_offset. rewrite TensorDec_Ind by assumption.
  f_equal. destruct L; [reflexivity|].
  unfold unlay, lay.
  change (skipn 2 ([c; d] ++ qs ++ [e])) with (qs ++ [e]).
  change (firstn 2 ([c; d] ++ qs ++ [e])) with [c; d].
  change (skipn (2 + length qs) ([c; d] ++ qs ++ [e]))
    with (skipn (length qs) (qs ++ [e])).
  rewrite firstn_app, firstn_all, Nat.sub_diag. simpl firstn.
  rewrite skipn_app, skipn_all, Nat.sub_diag. simpl.
  rewrite app_nil_r. reflexivity.
Qed.

Lemma shape_cover sizes p :
  (p < volume sizes)%nat -> sizes <> [] ->
  exists idx, in_shape sizes idx /\ p = TensorInd sizes idx.
Proof.
  intros H Hne. exists (TensorDec sizes p). split.
  - apply TensorDec_shape; assumption.
  - symmetry. apply TensorInd_Dec. assumption.
Qed.

Lemma store_du k (du : list R) d (v : nat -> R) :
  (d < length du)%nat -> v k = du.[d] ->
  fillsM (fun y_ : buf => y_) (fun p => p = k) v
    (fun y_ => x <- nth_error du d ;; Some (upd y_ k x)).
Proof.
  intros Hd Hv y_.
  destruct (nth_error du d) as [x|] eqn:E.
  - exists (upd y_ k x). split; [reflexivity|]. intros p. split.
    + intros ->. rewrite upd_same, Hv. unfold cell.
      symmetry. apply nth_error_nth. assumption.
    + intros Hp. apply upd_other. assumption.
  - apply nth_error_None in E. lia.
Qed.

(** ** Derivatives1D: what is stored, and where *)

Lemma du1D_length GP NE g_ j_ x_ sdim vdim d1d q1d e c q :
  length (du1D GP NE g_ j_ x_ sdim vdim d1d q1d e c q) = 3%nat.
Proof.
  unfold du1D. destruct GP; [|reflexivity].
  destruct (Nat.eqb sdim 1); [reflexivity|].
  destruct (Nat.eqb sdim 2); reflexivity.
Qed.

Lemma volume_lay1 L q1d vdim sdim NE :
  volume (lay L [q1d] vdim sdim NE) = volume [q1d; vdim; sdim; NE].
Proof. destruct L; unfold volume; simpl; lia. Qed.

Lemma cover1 L q1d vdim sdim NE p :
  (p < volume [q1d; vdim; sdim; NE])%nat ->
  exists q c d e, (q < q1d)%nat /\ (c < vdim)%nat /\ (d < sdim)%nat /\
    (e < NE)%nat /\
    p = TensorInd (lay L [q1d] vdim sdim NE) (lay L [q] c d e).
Proof.
  rewrite <- (volume_lay1 L). intros H.
  apply shape_cover in H; [|destruct L; discriminate].
  destruct H as [idx [Hin ->]].
  destruct L; simpl in Hin;
    destruct idx as [|i0 [|i1 [|i2 [|i3 [|i4 idx]]]]]; simpl in Hin;
    try tauto.
  - exists i0, i1, i2, i3. repeat split; tauto.
  - exists i2, i0, i1, i3. repeat split; tauto.
Qed.

Lemma Derivatives1D_fills L GP NE g_ j_ x_ sdim vdim d1d q1d :
  (sdim <= 3)%nat ->
  fillsM (fun y_ : buf => y_)
    (fun p => (p < volume [q1d; vdim; sdim; NE])%nat)
    (at_offset L 1 (lay L [q1d] vdim sdim NE)
       (val1D GP NE g_ j_ x_ sdim vdim d1d q1d))
    (fun y_ => Derivatives1D L GP NE g_ j_ x_ y_ sdim vdim d1d q1d).
Proof.
  intros Hs.
  apply fillsM_ext with
    (W := fun p => exists e, (e < NE)%nat /\ exists c, (c < vdim)%nat /\
            exists q, (q < q1d)%nat /\ exists d, (d < sdim)%nat /\
            p = TensorInd (lay L [q1d] vdim sdim NE) (lay L [q] c d e))
    (v := at_offset L 1 (lay L [q1d] vdim sdim NE)
            (val1D GP NE g_ j_ x_ sdim vdim d1d q1d)).
  - unfold Derivatives1D.
    apply fillsM_for. intros e He.
    apply fillsM_for. intros c Hc.
    apply fillsM_for. intros q Hq.
    apply fillsM_for. intros d Hd.
    change (for_loop d1d _ 0) with (dot1D g_ x_ vdim d1d q1d NE e c q).
    match goal with |- fillsM _ _ _ (fun y_ => x <- nth_error ?du d ;; _) =>
      change du with (du1D GP NE g_ j_ x_ sdim vdim d1d q1d e c q) end.
    assert (Hv : at_offset L 1 (lay L [q1d] vdim sdim NE)
                   (val1D GP NE g_ j_ x_ sdim vdim d1d q1d)
                   (TensorInd (lay L [q1d] vdim sdim NE) (lay L [q] c d e)) =
                 (du1D GP NE g_ j_ x_ sdim vdim d1d q1d e c q).[d]).
    { rewrite (at_offset_lay L [q]); [reflexivity|].
      destruct L; simpl; tauto. }
    destruct L; apply store_du; try (rewrite du1D_length; lia); exact Hv.
  - intros p. split.
    + intros H. destruct (@cover1 L _ _ _ _ _ H)
        as [q [c [d [e [Hq [Hc [Hd [He ->]]]]]]]].
      exists e. split; [assumption|]. exists c. split; [assumption|].
      exists q. split; [assumption|]. exists d. split; [assumption|].
      reflexivity.
    + intros [e [He [c [Hc [q [Hq [d [Hd ->]]]]]]]].
      rewrite <- (volume_lay1 L).
      apply TensorInd_lt. destruct L; simpl; tauto.
  - reflexivity.
Qed.

(** ** Loop nests that fill a tile *)

Lemma fills_store (S : Type) (get : S -> buf) (F : S -> S) k
    (v : nat -> R) :
  (forall s, get (F s) = upd (get s) k (v k)) ->
  fills get (fun p => p = k) v F.
Proof.
  intros H s p. rewrite H. split.
  - intros ->. apply upd_same.
  - intros Hp. apply upd_other. assumption.
Qed.

Lemma fill2 (S : Type) (get : S -> buf) sizes n1 n2
    (ix : nat -> nat -> list nat) (F : list nat -> R)
    (body : nat -> nat -> S -> S) :
  (forall i k, (i < n1)%nat -> (k < n2)%nat -> in_shape sizes (ix i k)) ->
  (forall i k s, (i < n1)%nat -> (k < n2)%nat ->
     get (body i k s) = upd (get s) (TensorInd sizes (ix i k)) (F (ix i k))) ->
  forall s i k, (i < n1)%nat -> (k < n2)%nat ->
    get (for_loop n1 (fun i s => for_loop n2 (fun k s => body i k s) s) s)
        (TensorInd sizes (ix i k)) = F (ix i k).
Proof.
  intros Hsh Hb s i k Hi Hk.
  assert (H : fills get
            (fun p => exists i, (i < n1)%nat /\ exists k, (k < n2)%nat /\
                      p = TensorInd sizes (ix i k))
            (fun p => F (TensorDec sizes p))
            (for_loop n1 (fun i s => for_loop n2 (fun k s => body i k s) s))).
  { apply fills_for. intros i' Hi'. apply fills_for. intros k' Hk'.
    apply fills_store. intros s'.
    rewrite TensorDec_Ind by (apply Hsh; assumption).
    apply Hb; assumption. }
  destruct (H s (TensorInd sizes (ix i k))) as [Hw _].
  rewrite Hw by (exists i; split; [assumption|]; exists k; split;
                 [assumption|reflexivity]).
  rewrite TensorDec_Ind by (apply Hsh; assumption). reflexivity.
Qed.


(** ** The shared tiles after the loads *)

Lemma LoadBG_B D1D Q1D b g s d q :
  (d < D1D)%nat -> (q < Q1D)%nat ->
  Reshape (fst (LoadBG D1D Q1D b g s)) [D1D; Q1D] [d; q] = b [q; d].
Proof.
  intros Hd Hq. unfold Reshape, LoadBG.
  apply (fill2 (@fst buf buf) [D1D; Q1D] (fun d q => [d; q])
           (fun idx => match idx with [d; q] => b [q; d] | _ => 0 end)
           (fun d q sBG =>
              (upd (fst sBG) (TensorInd [D1D; Q1D] [d; q]) (b [q; d]),
               upd (snd sBG) (TensorInd [D1D; Q1D] [d; q]) (g [q; d]))));
    try assumption.
  - intros; simpl; tauto.
  - reflexivity.
Qed.

Lemma LoadBG_G D1D Q1D b g s d q :
  (d < D1D)%nat -> (q < Q1D)%nat ->
  Reshape (snd (LoadBG D1D Q1D b g s)) [D1D; Q1D] [d; q] = g [q; d].
Proof.
  intros Hd Hq. unfold Reshape, LoadBG.
  apply (fill2 (@snd buf buf) [D1D; Q1D] (fun d q => [d; q])
           (fun idx => match idx with [d; q] => g [q; d] | _ => 0 end)
           (fun d q sBG =>
              (upd (fst sBG) (TensorInd [D1D; Q1D] [d; q]) (b [q; d]),
               upd (snd sBG) (TensorInd [D1D; Q1D] [d; q]) (g [q; d]))));
    try assumption.
  - intros; simpl; tauto.
  - reflexivity.
Qed.

Lemma LoadX2D_at e D1D c x s dx dy :
  (dx < D1D)%nat -> (dy < D1D)%nat ->
  Reshape (LoadX2D e D1D c x s) [D1D; D1D] [dx; dy] = x [dx; dy; c; e].
Proof.
  intros Hx Hy. unfold Reshape, LoadX2D.
  apply (fill2 (fun s : buf => s) [D1D; D1D] (fun dy dx => [dx; dy])
           (fun idx => match idx with [dx; dy] => x [dx; dy; c; e] | _ => 0 end)
           (fun dy dx sX =>
              upd sX (TensorInd [D1D; D1D] [dx; dy]) (x [dx; dy; c; e])));
    try assumption.
  - intros; simpl; tauto.
  - reflexivity.
Qed.

(** ** Derivatives2D: what is stored, and where *)

Lemma du2D_length GP NE b_ g_ j_ x_ SDIM VDIM D1D Q1D e c qx qy :
  length (du2D GP NE b_ g_ j_ x_ SDIM VDIM D1D Q1D e c qx qy) = 3%nat.
Proof.
  unfold du2D. destruct GP; [|reflexivity].
  destruct (Nat.eqb SDIM 2); reflexivity.
Qed.

Lemma volume_lay2 L Q1D VDIM SDIM NE :
  volume (lay L [Q1D; Q1D] VDIM SDIM NE) = volume [Q1D; Q1D; VDIM; SDIM; NE].
Proof. destruct L; unfold volume; simpl; lia. Qed.

Lemma fillsM_run (T : Type) W v (F : T * buf -> option (T * buf)) (t0 : T) :
  fillsM (@snd T buf) W v F ->
  fillsM (fun y_ : buf => y_) W v
    (fun y_ => st <- F (t0, y_) ;; Some (snd st)).
Proof.
  intros H y_. destruct (H (t0, y_)) as [[t1 y1] [E H1]].
  exists y1. rewrite E. split; [reflexivity|]. exact H1.
Qed.

Lemma pass1_2D_DQ0 D1D Q1D X B G s dy qx :
  (dy < D1D)%nat -> (qx < Q1D)%nat ->
  Reshape (fst (Derivatives2D_pass1 D1D Q1D X B G s)) [D1D; Q1D] [dy; qx] =
  sum_upto D1D (fun dx => X [dx; dy] * B [dx; qx]).
Proof.
  intros Hy Hx. unfold Reshape, Derivatives2D_pass1.
  apply (fill2 (@fst buf buf) [D1D; Q1D] (fun dy qx => [dy; qx])
           (fun idx => match idx with
                       | [dy; qx] =>
                           sum_upto D1D (fun dx => X [dx; dy] * B [dx; qx])
                       | _ => 0
                       end)); try assumption.
  - intros; simpl; tauto.
  - intros i k s' _ _. cbv zeta. rewrite acc2. reflexivity.
Qed.

Lemma pass1_2D_DQ1 D1D Q1D X B G s dy qx :
  (dy < D1D)%nat -> (qx < Q1D)%nat ->
  Reshape (snd (Derivatives2D_pass1 D1D Q1D X B G s)) [D1D; Q1D] [dy; qx] =
  sum_upto D1D (fun dx => X [dx; dy] * G [dx; qx]).
Proof.
  intros Hy Hx. unfold Reshape, Derivatives2D_pass1.
  apply (fill2 (@snd buf buf) [D1D; Q1D] (fun dy qx => [dy; qx])
           (fun idx => match idx with
                       | [dy; qx] =>
                           sum_upto D1D (fun dx => X [dx; dy] * G [dx; qx])
                       | _ => 0
                       end)); try assumption.
  - intros; simpl; tauto.
  - intros i k s' _ _. cbv zeta. rewrite acc2. reflexivity.
Qed.

(** The array [du] computed from the tiles is the one computed from the
    inputs. *)
Lemma Derivatives2D_du_inputs GP NE b_ g_ j_ x_ SDIM VDIM D1D Q1D smem
    sX0 sDQ e c qx qy :
  (qx < Q1D)%nat -> (qy < Q1D)%nat ->
  let BG := LoadBG D1D Q1D (Reshape b_ [Q1D; D1D]) (Reshape g_ [Q1D; D1D])
              (smem, smem) in
  let B := Reshape (fst BG) [D1D; Q1D] in
  let G := Reshape (snd BG) [D1D; Q1D] in
  let X := Reshape (LoadX2D e D1D c (Reshape x_ [D1D; D1D; VDIM; NE]) sX0)
             [D1D; D1D] in
  let s_DQ := Derivatives2D_pass1 D1D Q1D X B G sDQ in
  Derivatives2D_du GP SDIM D1D (Reshape j_ [Q1D; Q1D; SDIM; 2; NE]%nat)
    (Reshape (fst s_DQ) [D1D; Q1D]) (Reshape (snd s_DQ) [D1D; Q1D]) B G
    e qx qy =
  du2D GP NE b_ g_ j_ x_ SDIM VDIM D1D Q1D e c qx qy.
Proof.
  intros Hx Hy BG B G X s_DQ.
  unfold Derivatives2D_du, du2D. cbv zeta. rewrite acc2. cbn [fst snd].
  assert (Hu : sum_upto D1D (fun dy =>
                 Reshape (snd s_DQ) [D1D; Q1D] [dy; qx] * B [dy; qy]) =
               ref2D_u b_ g_ x_ VDIM D1D Q1D NE e c qx qy).
  { subst s_DQ X B G BG. apply sum_upto_ext. intros dy Hdy.
    rewrite pass1_2D_DQ1, LoadBG_B by assumption. f_equal.
    apply sum_upto_ext. intros dx Hdx.
    rewrite LoadX2D_at, LoadBG_G by assumption. reflexivity. }
  assert (Hv : sum_upto D1D (fun dy =>
                 Reshape (fst s_DQ) [D1D; Q1D] [dy; qx] * G [dy; qy]) =
               ref2D_v b_ g_ x_ VDIM D1D Q1D NE e c qx qy).
  { subst s_DQ X B G BG. apply sum_upto_ext. intros dy Hdy.
    rewrite pass1_2D_DQ0, LoadBG_G by assumption. f_equal.
    apply sum_upto_ext. intros dx Hdx.
    rewrite LoadX2D_at, LoadBG_B by assumption. reflexivity. }
  rewrite Hu, Hv. reflexivity.
Qed.

Lemma cover2 L Q1D VDIM SDIM NE p :
  (p < volume [Q1D; Q1D; VDIM; SDIM; NE])%nat ->
  exists qx qy c d e, (qx < Q1D)%nat /\ (qy < Q1D)%nat /\ (c < VDIM)%nat /\
    (d < SDIM)%nat /\ (e < NE)%nat /\
    p = TensorInd (lay L [Q1D; Q1D] VDIM SDIM NE) (lay L [qx; qy] c d e).
Proof.
  rewrite <- (volume_lay2 L). intros H.
  apply shape_cover in H; [|destruct L; discriminate].
  destruct H as [idx [Hin ->]].
  destruct L; simpl in Hin;
    destruct idx as [|i0 [|i1 [|i2 [|i3 [|i4 [|i5 idx]]]]]];
    simpl in Hin; try tauto.
  - exists i0, i1, i2, i3, i4. repeat split; tauto.
  - exists i2, i3, i0, i1, i4. repeat split; tauto.
Qed.

Lemma Derivatives2D_fills L (GP : bool) TV TD TQ NE b_ g_ j_ x_
    (sdim vdim d1d q1d : nat) smem :
  let D1D := pick TD d1d in
  let Q1D := pick TQ q1d in
  let VDIM := pick TV vdim in
  let SDIM := if GP then sdim else 2%nat in
  (SDIM <= 3)%nat ->
  fillsM (fun y_ : buf => y_)
    (fun p => (p < volume [Q1D; Q1D; VDIM; SDIM; NE])%nat)
    (at_offset L 2 (lay L [Q1D; Q1D] VDIM SDIM NE)
       (val2D GP NE b_ g_ j_ x_ SDIM VDIM D1D Q1D))
    (fun y_ => Derivatives2D L GP TV TD TQ NE b_ g_ j_ x_ y_
                 sdim vdim d1d q1d smem).
Proof.
  intros D1D Q1D VDIM SDIM Hs.
  apply fillsM_ext with
    (W := fun p => exists e, (e < NE)%nat /\ exists c, (c < VDIM)%nat /\
            exists qy, (qy < Q1D)%nat /\ exists qx, (qx < Q1D)%nat /\
            exists d, (d < SDIM)%nat /\
            p = TensorInd (lay L [Q1D; Q1D] VDIM SDIM NE)
                  (lay L [qx; qy] c d e))
    (v := at_offset L 2 (lay L [Q1D; Q1D] VDIM SDIM NE)
            (val2D GP NE b_ g_ j_ x_ SDIM VDIM D1D Q1D)).
  - unfold Derivatives2D. fold D1D Q1D VDIM SDIM.
    apply fillsM_for. intros e He.
    apply fillsM_run.
    apply fillsM_for. intros c Hc.
    intros [t y0]. cbv zeta. cbn [fst snd].
    match goal with |- context [bind (forM ?n ?body y0) _] =>
      assert (Hin : fillsM (fun y_ : buf => y_)
                (fun p => exists qy, (qy < Q1D)%nat /\
                   exists qx, (qx < Q1D)%nat /\ exists d, (d < SDIM)%nat /\
                   p = TensorInd (lay L [Q1D; Q1D] VDIM SDIM NE)
                         (lay L [qx; qy] c d e))
                (at_offset L 2 (lay L [Q1D; Q1D] VDIM SDIM NE)
                   (val2D GP NE b_ g_ j_ x_ SDIM VDIM D1D Q1D))
                (forM n body))
    end.
    { apply fillsM_for. intros qy Hqy.
      apply fillsM_for. intros qx Hqx.
      apply fillsM_for. intros d Hd.
      rewrite Derivatives2D_du_inputs with (c := c) by assumption.
      assert (Hv : at_offset L 2 (lay L [Q1D; Q1D] VDIM SDIM NE)
                     (val2D GP NE b_ g_ j_ x_ SDIM VDIM D1D Q1D)
                     (TensorInd (lay L [Q1D; Q1D] VDIM SDIM NE)
                        (lay L [qx; qy] c d e)) =
                   (du2D GP NE b_ g_ j_ x_ SDIM VDIM D1D Q1D e c qx qy).[d]).
      { rewrite (at_offset_lay L [qx; qy]); [reflexivity|].
        destruct L; simpl; tauto. }
      destruct L; apply store_du; try (rewrite du2D_length; lia); exact Hv. }
    destruct (Hin y0) as [y1 [E H1]]. rewrite E.
    eexists. split; [reflexivity|]. exact H1.
  - intros p. split.
    + intros H. destruct (@cover2 L _ _ _ _ _ H)
        as [qx [qy [c [d [e [Hqx [Hqy [Hc [Hd [He ->]]]]]]]]]].
      exists e. split; [assumption|]. exists c. split; [assumption|].
      exists qy. split; [assumption|]. exists qx. split; [assumption|].
      exists d. split; [assumption|]. reflexivity.
    + intros [e [He [c [Hc [qy [Hqy [qx [Hqx [d [Hd ->]]]]]]]]]].
      rewrite <- (volume_lay2 L).
      apply TensorInd_lt. destruct L; simpl; tauto.
  - reflexivity.
Qed.

(** ** Derivatives3D: what is stored, and where *)













(** ** The kernels, entry by entry *)

Lemma Derivatives1D_spec L GP NE g_ j_ x_ y_ sdim vdim d1d q1d :
  (sdim <= 3)%nat ->
  exists y', Derivatives1D L GP NE g_ j_ x_ y_ sdim vdim d1d q1d = Some y' /\
    (forall q c d e, (q < q1d)%nat -> (c < vdim)%nat -> (d < sdim)%nat ->
       (e < NE)%nat ->
       out1D L q1d vdim sdim NE y' q c d e =
       (du1D GP NE g_ j_ x_ sdim vdim d1d q1d e c q).[d]) /\
    (forall p, (volume [q1d; vdim; sdim; NE] <= p)%nat -> y' p = y_ p).
Proof.
  intros Hs.
  destruct (@Derivatives1D_fills L GP NE g_ j_ x_ sdim vdim d1d q1d Hs y_)
    as [y' [E H]].
  exists y'. split; [exact E|]. split.
  - intros q c d e Hq Hc Hd He. unfold out1D.
    destruct (H (TensorInd (lay L [q1d] vdim sdim NE) (lay L [q] c d e)))
      as [Hw _].
    rewrite Hw.
    + rewrite (at_offset_lay L [q]); [reflexivity|].
      destruct L; simpl; tauto.
    + rewrite <- (volume_lay1 L). apply TensorInd_lt.
      destruct L; simpl; tauto.
  - intros p Hp. destruct (H p) as [_ Hn]. apply Hn. lia.
Qed.

Lemma Derivatives2D_spec L (GP : bool) TV TD TQ NE b_ g_ j_ x_ y_
    (sdim vdim d1d q1d : nat) smem :
  let D1D := pick TD d1d in
  let Q1D := pick TQ q1d in
  let VDIM := pick TV vdim in
  let SDIM := if GP then sdim else 2%nat in
  (SDIM <= 3)%nat ->
  exists y', Derivatives2D L GP TV TD TQ NE b_ g_ j_ x_ y_
               sdim vdim d1d q1d smem = Some y' /\
    (forall qx qy c d e, (qx < Q1D)%nat -> (qy < Q1D)%nat ->
       (c < VDIM)%nat -> (d < SDIM)%nat -> (e < NE)%nat ->
       out2D L Q1D VDIM SDIM NE y' qx qy c d e =
       (du2D GP NE b_ g_ j_ x_ SDIM VDIM D1D Q1D e c qx qy).[d]) /\
    (forall p, (volume [Q1D; Q1D; VDIM; SDIM; NE] <= p)%nat ->
       y' p = y_ p).
Proof.
  intros D1D Q1D VDIM SDIM Hs.
  destruct (@Derivatives2D_fills L GP TV TD TQ NE b_ g_ j_ x_
              sdim vdim d1d q1d smem Hs y_) as [y' [E H]].
  fold D1D Q1D VDIM SDIM in H.
  exists y'. split; [exact E|]. split.
  - intros qx qy c d e Hqx Hqy Hc Hd He. unfold out2D.
    destruct (H (TensorInd (lay L [Q1D; Q1D] VDIM SDIM NE)
                   (lay L [qx; qy] c d e))) as [Hw _].
    rewrite Hw.
    + rewrite (at_offset_lay L [qx; qy]); [reflexivity|].
      destruct L; simpl; tauto.
    + rewrite <- (volume_lay2 L). apply TensorInd_lt.
      destruct L; simpl; tauto.
  - intros p Hp. destruct (H p) as [_ Hn]. apply Hn. lia.
Qed.


(** ** The directions a kernel can store *)



(** ** The concrete scenarios of the specification *)

(** One element, a linear basis with two dofs, two quadrature points and the
    nodal values [0; 1] of the identity: the reference gradient is one at
    both quadrature points. *)
Example Derivatives1D_linear_field :
  exists y', Derivatives1D byNODES false 1 g_lin ones (buf_of [0; 1]) ones
               1 1 2 2 = Some y' /\
    y' 0%nat = 1 /\ y' 1%nat = 1.
Proof.
  eexists. split; [reflexivity|].
  unfold upd, Reshape, g_lin, buf_of. simpl. split; lra.
Qed.

(** One element, the bilinear basis and the nodal values of [2 x + 3 y]: the
    reference gradient is (2, 3) at every quadrature point, and so is the
    physical gradient for the identity Jacobian. *)
Example Derivatives2D_affine_field :
  forall GP : bool,
  exists y', Derivatives2D byVDIM GP 0 0 0 1 b_lin g_lin
               (fun p => j_id2 (p / 4)%nat) (buf_of [0; 2; 3; 5]) ones
               2 1 2 2 ones = Some y' /\
    forall qx qy, (qx < 2)%nat -> (qy < 2)%nat ->
      out2D byVDIM 2 1 2 1 y' qx qy 0 0 0 = 2 /\
      out2D byVDIM 2 1 2 1 y' qx qy 0 1 0 = 3.
Proof.
  intros GP.
  pose proof (@Derivatives2D_spec byVDIM GP 0 0 0 1 b_lin g_lin
                (fun p => j_id2 (p / 4)%nat) (buf_of [0; 2; 3; 5]) ones
                2 1 2 2 ones) as H0.
  cbv zeta in H0. unfold pick in H0. simpl Nat.eqb in H0. cbv iota in H0.
  destruct H0 as [y' [E [H _]]]; [destruct GP; lia|].
  exists y'. split; [exact E|]. intros qx qy Hqx Hqy.
  assert (HS : (if GP then 2%nat else 2%nat) = 2%nat)
    by (destruct GP; reflexivity).
  rewrite HS in H.
  rewrite !H by lia.
  destruct qx as [|[|qx]]; [| |lia]; destruct qy as [|[|qy]]; try lia;
    destruct GP;
    unfold du2D, ref2D_u, ref2D_v, sum_upto, CalcInverse2, cell, Reshape,
      b_lin, g_lin, j_id2, buf_of;
    simpl; split; field.
Qed.

(** ** Sum factorization against the direct contraction *)

Lemma factor2D (fx fy x_ : buf) VDIM D1D Q1D NE e c qx qy :
  sum_upto D1D (fun dy =>
    sum_upto D1D (fun dx =>
      Reshape x_ [D1D; D1D; VDIM; NE] [dx; dy; c; e]
      * Reshape fx [Q1D; D1D] [qx; dx])
    * Reshape fy [Q1D; D1D] [qy; dy]) =
  direct2D fx fy x_ VDIM D1D Q1D NE e c qx qy.
Proof.
  unfold direct2D.
  rewrite sum_upto_swap. apply sum_upto_ext. intros dy _.
  rewrite <- sum_upto_mul_r. apply sum_upto_ext. intros dx _. ring.
Qed.





(** ** The closed-form inverses as matrices *)


(** [minv2] is a left inverse of a non-singular 2x2 matrix. *)
Lemma minv2_left (A : matrix) i k :
  det2 A <> 0 -> (i < 2)%nat -> (k < 2)%nat ->
  mmul 2 (minv2 A) A i k = if Nat.eqb i k then 1 else 0.
Proof.
  intros Hd Hi Hk. unfold mmul, sum_upto, minv2. simpl for_loop.
  destruct i as [|[|i]]; [| |lia]; destruct k as [|[|k]]; try lia;
    simpl Nat.eqb; cbv iota; unfold det2 in *; field; assumption.
Qed.

(** [pinv32] is a left inverse of a 3x2 matrix of full column rank. *)
Lemma pinv32_left (J : matrix) i k :
  det2 (mmul 3 (mtrans J) J) <> 0 -> (i < 2)%nat -> (k < 2)%nat ->
  mmul 3 (pinv32 J) J i k = if Nat.eqb i k then 1 else 0.
Proof.
  intros Hd Hi Hk. unfold pinv32.
  assert (E : mmul 3 (mmul 2 (minv2 (mmul 3 (mtrans J) J)) (mtrans J)) J i k =
              mmul 2 (minv2 (mmul 3 (mtrans J) J)) (mmul 3 (mtrans J) J) i k).
  { unfold mmul, sum_upto. simpl for_loop. ring. }
  rewrite E. apply minv2_left; assumption.
Qed.



(** [CalcInverse3] returns a left inverse of a non-singular 3x3 matrix, both
    stored by columns. *)
Lemma CalcInverse3_left (J : matrix) i k :
  det3 J <> 0 -> (i < 3)%nat -> (k < 3)%nat ->
  mmul 3 (by_columns 3
            (CalcInverse3 [J 0 0; J 1 0; J 2 0; J 0 1; J 1 1; J 2 1;
                           J 0 2; J 1 2; J 2 2]%nat)) J i k =
  if Nat.eqb i k then 1 else 0.
Proof.
  intros Hd Hi Hk. unfold mmul, sum_upto, by_columns, CalcInverse3, cell.
  destruct i as [|[|[|i]]]; [| | |lia]; destruct k as [|[|[|k]]]; try lia;
    simpl; unfold det3 in Hd; field; intros E; apply Hd; rewrite <- E; ring.
Qed.

(** [CalcLeftInverse21] and [CalcLeftInverse31] return left inverses of a
    column that is not zero. *)
Lemma CalcLeftInverse21_left a b :
  a * a + b * b <> 0 ->
  (CalcLeftInverse21 [a; b]).[0] * a + (CalcLeftInverse21 [a; b]).[1] * b = 1.
Proof.
  intros H. unfold CalcLeftInverse21, cell. simpl. field. exact H.
Qed.

Lemma CalcLeftInverse31_left a b c :
  a * a + b * b + c * c <> 0 ->
  (CalcLeftInverse31 [a; b; c]).[0] * a + (CalcLeftInverse31 [a; b; c]).[1] * b
  + (CalcLeftInverse31 [a; b; c]).[2] * c = 1.
Proof.
  intros H. unfold CalcLeftInverse31, cell. simpl. field. exact H.
Qed.

(** * The properties of the specification *)

(** Side conditions on concrete dimensions. *)
Ltac dims := unfold pick; simpl; lia.



(** C2.  [Derivatives1D] stores in direction 0 the dot product of row [q] of
    the derivative table with the nodal values of component [c] of element
    [e]; with the physical transform on and [sdim = 1] it stores that dot
    product divided by the Jacobian entry [j(q,0,e)]. *)
Theorem Derivatives1D_dot_product L NE g_ j_ x_ y_ (vdim d1d q1d : nat) :
  (forall sdim, (1 <= sdim <= 3)%nat ->
     exists y', Derivatives1D L false NE g_ j_ x_ y_ sdim vdim d1d q1d
                = Some y' /\
       forall e c q, (e < NE)%nat -> (c < vdim)%nat -> (q < q1d)%nat ->
         out1D L q1d vdim sdim NE y' q c 0 e =
         sum_upto d1d (fun d =>
           Reshape g_ [q1d; d1d] [q; d] * Reshape x_ [d1d; vdim; NE] [d; c; e]))
  /\
  (exists y', Derivatives1D L true NE g_ j_ x_ y_ 1 vdim d1d q1d = Some y' /\
     forall e c q, (e < NE)%nat -> (c < vdim)%nat -> (q < q1d)%nat ->
       out1D L q1d vdim 1 NE y' q c 0 e =
       sum_upto d1d (fun d =>
         Reshape g_ [q1d; d1d] [q; d] * Reshape x_ [d1d; vdim; NE] [d; c; e])
       / Reshape j_ [q1d; 1; NE]%nat [q; 0; e]%nat).
Proof.
  split.
  - intros sdim Hs.
    destruct (@Derivatives1D_spec L false NE g_ j_ x_ y_ sdim vdim d1d q1d
                ltac:(lia)) as [y' [E [H _]]].
    exists y'. split; [exact E|]. intros e c q He Hc Hq.
    rewrite H by (assumption || lia). reflexivity.
  - destruct (@Derivatives1D_spec L true NE g_ j_ x_ y_ 1 vdim d1d q1d
                ltac:(lia)) as [y' [E [H _]]].
    exists y'. split; [exact E|]. intros e c q He Hc Hq.
    rewrite H by (assumption || lia). reflexivity.
Qed.

Lemma Derivatives1D_dot_product_witness :
  (exists y', Derivatives1D byNODES false 1 g_lin ones (buf_of [0; 1]) ones
                2 1 2 2 = Some y' /\
     out1D byNODES 2 1 2 1 y' 1 0 0 0 =
     sum_upto 2 (fun d =>
       Reshape g_lin [2; 2]%nat [1; d]%nat
       * Reshape (buf_of [0; 1]) [2; 1; 1]%nat [d; 0; 0]%nat)) /\
  (exists y', Derivatives1D byVDIM true 1 g_lin ones (buf_of [0; 1]) ones
                1 1 2 2 = Some y' /\
     out1D byVDIM 2 1 1 1 y' 1 0 0 0 =
     sum_upto 2 (fun d =>
       Reshape g_lin [2; 2]%nat [1; d]%nat
       * Reshape (buf_of [0; 1]) [2; 1; 1]%nat [d; 0; 0]%nat)
     / Reshape ones [2; 1; 1]%nat [1; 0; 0]%nat).
Proof.
  split.
  - destruct (Derivatives1D_dot_product byNODES 1 g_lin ones (buf_of [0; 1])
                ones 1 2 2) as [H _].
    destruct (H 2%nat ltac:(lia)) as [y' [E H']].
    exists y'. split; [exact E|]. apply H'; lia.
  - destruct (Derivatives1D_dot_product byVDIM 1 g_lin ones (buf_of [0; 1])
                ones 1 2 2) as [_ [y' [E H']]].
    exists y'. split; [exact E|]. apply H'; lia.
Defined.











(** C7.  With the physical transform off the kernels do not read the
    Jacobian: two runs that differ in the Jacobian buffer alone produce the
    same output. *)
Theorem reference_gradient_ignores_jacobian
    L TV TD TQ NE b_ g_ j1 j2 x_ y_ (sdim vdim d1d q1d : nat) smem :
  Derivatives1D L false NE g_ j1 x_ y_ sdim vdim d1d q1d =
  Derivatives1D L false NE g_ j2 x_ y_ sdim vdim d1d q1d /\
  Derivatives2D L false TV TD TQ NE b_ g_ j1 x_ y_ sdim vdim d1d q1d smem =
  Derivatives2D L false TV TD TQ NE b_ g_ j2 x_ y_ sdim vdim d1d q1d smem /\
  Derivatives3D L false TV TD TQ NE b_ g_ j1 x_ y_ vdim d1d q1d smem =
  Derivatives3D L false TV TD TQ NE b_ g_ j2 x_ y_ vdim d1d q1d smem.
Proof.
  split; [|split]; reflexivity.
Qed.



(** C9.  With the physical transform off [Derivatives2D] ignores [sdim]: its
    output for any [sdim] is its output for [sdim = 2], and the output is
    shaped with two directions per quadrature point, the two reference
    derivatives, whatever [sdim] is. *)
Theorem Derivatives2D_reference_ignores_sdim
    L TV TD TQ NE b_ g_ j_ x_ y_ (sdim vdim d1d q1d : nat) smem :
  let D1D := pick TD d1d in
  let Q1D := pick TQ q1d in
  let VDIM := pick TV vdim in
  Derivatives2D L false TV TD TQ NE b_ g_ j_ x_ y_ sdim vdim d1d q1d smem =
  Derivatives2D L false TV TD TQ NE b_ g_ j_ x_ y_ 2 vdim d1d q1d smem /\
  exists y',
    Derivatives2D L false TV TD TQ NE b_ g_ j_ x_ y_ sdim vdim d1d q1d smem
      = Some y' /\
    (forall qx qy c e, (qx < Q1D)%nat -> (qy < Q1D)%nat -> (c < VDIM)%nat ->
       (e < NE)%nat ->
       out2D L Q1D VDIM 2 NE y' qx qy c 0 e =
         ref2D_u b_ g_ x_ VDIM D1D Q1D NE e c qx qy /\
       out2D L Q1D VDIM 2 NE y' qx qy c 1 e =
         ref2D_v b_ g_ x_ VDIM D1D Q1D NE e c qx qy) /\
    (forall p, (volume [Q1D; Q1D; VDIM; 2; NE] <= p)%nat -> y' p = y_ p).
Proof.
  intros D1D Q1D VDIM. split; [reflexivity|].
  pose proof (@Derivatives2D_spec L false TV TD TQ NE b_ g_ j_ x_ y_
                sdim vdim d1d q1d smem) as H0.
  cbv zeta iota in H0. fold D1D Q1D VDIM in H0.
  destruct (H0 ltac:(lia)) as [y' [E [H F]]].
  exists y'. split; [exact E|]. split; [|exact F].
  intros qx qy c e Hqx Hqy Hc He.
  split; rewrite H by (assumption || lia); reflexivity.
Qed.

Lemma Derivatives2D_reference_ignores_sdim_witness :
  Derivatives2D byNODES false 0 0 0 1 ones g_lin ones ones ones 3 1 2 2 ones =
  Derivatives2D byNODES false 0 0 0 1 ones g_lin ones ones ones 2 1 2 2 ones
  /\
  exists y',
    Derivatives2D byNODES false 0 0 0 1 ones g_lin ones ones ones 3 1 2 2 ones
      = Some y' /\
    (out2D byNODES 2 1 2 1 y' 1 1 0 0 0 =
       ref2D_u ones g_lin ones 1 2 2 1 0 0 1 1 /\
     out2D byNODES 2 1 2 1 y' 1 1 0 1 0 =
       ref2D_v ones g_lin ones 1 2 2 1 0 0 1 1) /\
    y' 8%nat = 1.
Proof.
  destruct (Derivatives2D_reference_ignores_sdim byNODES 0 0 0 1 ones g_lin
              ones ones ones 3 1 2 2 ones) as [Heq [y' [E [H F]]]].
  split; [exact Heq|]. exists y'. split; [exact E|]. split.
  - apply H; dims.
  - apply F. dims.
Defined.

(** C10.  With the physical transform off and [sdim > 1], [Derivatives1D]
    stores zero in the directions 1 to [sdim - 1], at every element,
    component and quadrature point.  The local array has three cells, so
    [sdim] is at most three. *)
Theorem Derivatives1D_reference_pads_with_zero
    L NE g_ j_ x_ y_ (sdim vdim d1d q1d : nat) :
  (1 < sdim <= 3)%nat ->
  exists y', Derivatives1D L false NE g_ j_ x_ y_ sdim vdim d1d q1d
             = Some y' /\
    forall q c d e, (q < q1d)%nat -> (c < vdim)%nat ->
      (1 <= d < sdim)%nat -> (e < NE)%nat ->
      out1D L q1d vdim sdim NE y' q c d e = 0.
Proof.
  intros Hs.
  destruct (@Derivatives1D_spec L false NE g_ j_ x_ y_ sdim vdim d1d q1d
              ltac:(lia)) as [y' [E [H _]]].
  exists y'. split; [exact E|]. intros q c d e Hq Hc Hd He.
  rewrite H by (assumption || lia). unfold du1D, cell.
  destruct d as [|[|[|d]]]; [lia| | |lia]; reflexivity.
Qed.

Lemma Derivatives1D_reference_pads_with_zero_witness :
  exists y', Derivatives1D byVDIM false 1 g_lin ones (buf_of [0; 1]) ones
               3 1 2 2 = Some y' /\
    out1D byVDIM 2 1 3 1 y' 1 0 1 0 = 0 /\
    out1D byVDIM 2 1 3 1 y' 1 0 2 0 = 0.
Proof.
  destruct (@Derivatives1D_reference_pads_with_zero byVDIM 1 g_lin ones
              (buf_of [0; 1]) ones 3 1 2 2 ltac:(lia)) as [y' [E H]].
  exists y'. split; [exact E|]. split; apply H; lia.
Defined.

(** * Further properties of the kernels *)

(** ** When the kernels are defined *)






(** ** Empty batches *)



(** ** Linearity of the reference gradient *)

Lemma dot1D_axpy a g_ x1 x2 vdim d1d q1d NE e c q :
  dot1D g_ (axpy a x1 x2) vdim d1d q1d NE e c q =
  a * dot1D g_ x1 vdim d1d q1d NE e c q + dot1D g_ x2 vdim d1d q1d NE e c q.
Proof.
  unfold dot1D. rewrite <- sum_upto_mul_l, <- sum_upto_plus.
  apply sum_upto_ext. intros d _. unfold Reshape, axpy. ring.
Qed.

Lemma direct2D_axpy a fx fy x1 x2 VDIM D1D Q1D NE e c qx qy :
  direct2D fx fy (axpy a x1 x2) VDIM D1D Q1D NE e c qx qy =
  a * direct2D fx fy x1 VDIM D1D Q1D NE e c qx qy
  + direct2D fx fy x2 VDIM D1D Q1D NE e c qx qy.
Proof.
  unfold direct2D. rewrite <- sum_upto_mul_l, <- sum_upto_plus.
  apply sum_upto_ext. intros dx _.
  rewrite <- sum_upto_mul_l, <- sum_upto_plus.
  apply sum_upto_ext. intros dy _. unfold Reshape, axpy. ring.
Qed.


(** X4.  With the physical transform off, [Derivatives1D] is linear in the
    field: what it stores for [a * x1 + x2] is [a] times what it stores for
    [x1] plus what it stores for [x2], in every cell of the shape. *)
Theorem Derivatives1D_reference_linear
    L NE g_ j_ x1 x2 y_ (a : R) (sdim vdim d1d q1d : nat) :
  (sdim <= 3)%nat ->
  exists y1 y2 y3,
    Derivatives1D L false NE g_ j_ x1 y_ sdim vdim d1d q1d = Some y1 /\
    Derivatives1D L false NE g_ j_ x2 y_ sdim vdim d1d q1d = Some y2 /\
    Derivatives1D L false NE g_ j_ (axpy a x1 x2) y_ sdim vdim d1d q1d
      = Some y3 /\
    forall q c d e, (q < q1d)%nat -> (c < vdim)%nat -> (d < sdim)%nat ->
      (e < NE)%nat ->
      out1D L q1d vdim sdim NE y3 q c d e =
      a * out1D L q1d vdim sdim NE y1 q c d e
      + out1D L q1d vdim sdim NE y2 q c d e.
Proof.
  intros Hs.
  destruct (@Derivatives1D_spec L false NE g_ j_ x1 y_ sdim vdim d1d q1d Hs)
    as [y1 [E1 [H1 _]]].
  destruct (@Derivatives1D_spec L false NE g_ j_ x2 y_ sdim vdim d1d q1d Hs)
    as [y2 [E2 [H2 _]]].
  destruct (@Derivatives1D_spec L false NE g_ j_ (axpy a x1 x2) y_
              sdim vdim d1d q1d Hs) as [y3 [E3 [H3 _]]].
  exists y1, y2, y3. repeat (split; [assumption|]).
  intros q c d e Hq Hc Hd He. rewrite H1, H2, H3 by assumption.
  unfold du1D. rewrite dot1D_axpy. unfold cell.
  destruct d as [|[|[|d]]]; [| | |lia]; simpl nth; ring.
Qed.

Lemma Derivatives1D_reference_linear_witness :
  exists y1 y2 y3,
    Derivatives1D byNODES false 1 g_lin ones (buf_of [0; 1]) ones 2 1 2 2
      = Some y1 /\
    Derivatives1D byNODES false 1 g_lin ones ones ones 2 1 2 2 = Some y2 /\
    Derivatives1D byNODES false 1 g_lin ones (axpy 3 (buf_of [0; 1]) ones)
      ones 2 1 2 2 = Some y3 /\
    out1D byNODES 2 1 2 1 y3 1 0 0 0 =
    3 * out1D byNODES 2 1 2 1 y1 1 0 0 0 + out1D byNODES 2 1 2 1 y2 1 0 0 0.
Proof.
  destruct (@Derivatives1D_reference_linear byNODES 1 g_lin ones
              (buf_of [0; 1]) ones ones 3 2 1 2 2 ltac:(lia))
    as [y1 [y2 [y3 [E1 [E2 [E3 H]]]]]].
  exists y1, y2, y3. repeat (split; [assumption|]). apply H; lia.
Defined.

(** X5.  With the physical transform off, [Derivatives2D] is linear in the
    field. *)
Theorem Derivatives2D_reference_linear
    L TV TD TQ NE b_ g_ j_ x1 x2 y_ (a : R) (sdim vdim d1d q1d : nat) smem :
  let Q1D := pick TQ q1d in
  let VDIM := pick TV vdim in
  exists y1 y2 y3,
    Derivatives2D L false TV TD TQ NE b_ g_ j_ x1 y_ sdim vdim d1d q1d smem
      = Some y1 /\
    Derivatives2D L false TV TD TQ NE b_ g_ j_ x2 y_ sdim vdim d1d q1d smem
      = Some y2 /\
    Derivatives2D L false TV TD TQ NE b_ g_ j_ (axpy a x1 x2) y_
      sdim vdim d1d q1d smem = Some y3 /\
    forall qx qy c d e, (qx < Q1D)%nat -> (qy < Q1D)%nat -> (c < VDIM)%nat ->
      (d < 2)%nat -> (e < NE)%nat ->
      out2D L Q1D VDIM 2 NE y3 qx qy c d e =
      a * out2D L Q1D VDIM 2 NE y1 qx qy c d e
      + out2D L Q1D VDIM 2 NE y2 qx qy c d e.
Proof.
  intros Q1D VDIM.
  pose proof (@Derivatives2D_spec L false TV TD TQ NE b_ g_ j_ x1 y_
                sdim vdim d1d q1d smem) as S1.
  pose proof (@Derivatives2D_spec L false TV TD TQ NE b_ g_ j_ x2 y_
                sdim vdim d1d q1d smem) as S2.
  pose proof (@Derivatives2D_spec L false TV TD TQ NE b_ g_ j_ (axpy a x1 x2)
                y_ sdim vdim d1d q1d smem) as S3.
  cbv zeta iota in S1, S2, S3. fold Q1D VDIM in S1, S2, S3.
  destruct (S1 ltac:(lia)) as [y1 [E1 [H1 _]]].
  destruct (S2 ltac:(lia)) as [y2 [E2 [H2 _]]].
  destruct (S3 ltac:(lia)) as [y3 [E3 [H3 _]]].
  exists y1, y2, y3. repeat (split; [assumption|]).
  intros qx qy c d e Hqx Hqy Hc Hd He. rewrite H1, H2, H3 by assumption.
  unfold du2D, ref2D_u, ref2D_v. rewrite !factor2D, !direct2D_axpy.
  unfold cell. destruct d as [|[|d]]; [| |lia]; simpl nth; ring.
Qed.

Lemma Derivatives2D_reference_linear_witness :
  exists y1 y2 y3,
    Derivatives2D byVDIM false 0 0 0 1 b_lin g_lin ones (buf_of [0; 2; 3; 5])
      ones 2 1 2 2 ones = Some y1 /\
    Derivatives2D byVDIM false 0 0 0 1 b_lin g_lin ones ones
      ones 2 1 2 2 ones = Some y2 /\
    Derivatives2D byVDIM false 0 0 0 1 b_lin g_lin ones
      (axpy 3 (buf_of [0; 2; 3; 5]) ones) ones 2 1 2 2 ones = Some y3 /\
    out2D byVDIM 2 1 2 1 y3 1 0 0 1 0 =
    3 * out2D byVDIM 2 1 2 1 y1 1 0 0 1 0 + out2D byVDIM 2 1 2 1 y2 1 0 0 1 0.
Proof.
  destruct (Derivatives2D_reference_linear byVDIM 0 0 0 1 b_lin g_lin ones
              (buf_of [0; 2; 3; 5]) ones ones 3 2 1 2 2 ones)
    as [y1 [y2 [y3 [E1 [E2 [E3 H]]]]]].
  exists y1, y2, y3. repeat (split; [assumption|]). apply H; dims.
Defined.



(** ** What a cell of the output depends on *)

(** X7.  A cell that [Derivatives1D] stores for the quadrature point [q],
    component [c] and element [e] depends only on the nodal values of that
    component of that element and on the Jacobian at that point: two runs
    whose fields agree there, and whose Jacobians agree there, store the same
    value in the cell, whatever the rest of the fields, the Jacobians and the
    previous outputs are. *)
Theorem Derivatives1D_cell_is_local
    L GP NE g_ j1 j2 x1 x2 y1 y2 (sdim vdim d1d q1d : nat) q c e :
  (sdim <= 3)%nat -> (q < q1d)%nat -> (c < vdim)%nat -> (e < NE)%nat ->
  (forall d, (d < d1d)%nat ->
     Reshape x1 [d1d; vdim; NE] [d; c; e] =
     Reshape x2 [d1d; vdim; NE] [d; c; e]) ->
  (forall r, (r < sdim)%nat ->
     Reshape j1 [q1d; sdim; NE] [q; r; e] =
     Reshape j2 [q1d; sdim; NE] [q; r; e]) ->
  exists y1' y2',
    Derivatives1D L GP NE g_ j1 x1 y1 sdim vdim d1d q1d = Some y1' /\
    Derivatives1D L GP NE g_ j2 x2 y2 sdim vdim d1d q1d = Some y2' /\
    forall d, (d < sdim)%nat ->
      out1D L q1d vdim sdim NE y1' q c d e =
      out1D L q1d vdim sdim NE y2' q c d e.
Proof.
  intros Hs Hq Hc He Hx Hj.
  destruct (@Derivatives1D_spec L GP NE g_ j1 x1 y1 sdim vdim d1d q1d Hs)
    as [y1' [E1 [H1 _]]].
  destruct (@Derivatives1D_spec L GP NE g_ j2 x2 y2 sdim vdim d1d q1d Hs)
    as [y2' [E2 [H2 _]]].
  exists y1', y2'. repeat (split; [assumption|]).
  intros d Hd. rewrite H1, H2 by assumption. f_equal.
  unfold du1D.
  assert (Ed : dot1D g_ x1 vdim d1d q1d NE e c q =
               dot1D g_ x2 vdim d1d q1d NE e c q).
  { unfold dot1D. apply sum_upto_ext. intros d0 Hd0.
    rewrite Hx by assumption. reflexivity. }
  rewrite Ed. destruct GP; [|reflexivity].
  destruct sdim as [|[|[|[|sdim]]]]; try lia; simpl Nat.eqb; cbv iota zeta;
    rewrite ?(Hj 0%nat), ?(Hj 1%nat), ?(Hj 2%nat) by lia; reflexivity.
Qed.

Lemma Derivatives1D_cell_is_local_witness :
  exists y1' y2',
    Derivatives1D byNODES true 2 g_lin ones (buf_of [0; 1; 7; 7]) ones
      1 1 2 2 = Some y1' /\
    Derivatives1D byNODES true 2 g_lin ones (buf_of [0; 1; 5; 9]) g_lin
      1 1 2 2 = Some y2' /\
    out1D byNODES 2 1 1 2 y1' 1 0 0 0 = out1D byNODES 2 1 1 2 y2' 1 0 0 0.
Proof.
  destruct (@Derivatives1D_cell_is_local byNODES true 2 g_lin ones ones
              (buf_of [0; 1; 7; 7]) (buf_of [0; 1; 5; 9]) ones g_lin
              1 1 2 2 1 0 0) as [y1' [y2' [E1 [E2 H]]]]; try lia.
  - intros d Hd. destruct d as [|[|d]]; [| |lia]; reflexivity.
  - intros r Hr. reflexivity.
  - exists y1', y2'. repeat (split; [assumption|]). apply H. lia.
Defined.

(** X8.  A cell that [Derivatives2D] stores for the quadrature point
    [(qx,qy)], component [c] and element [e] depends only on the nodal values
    of that component of that element and on the Jacobian at that point, and
    not on what the output buffer or the shared tiles held before. *)
Theorem Derivatives2D_cell_is_local
    L (GP : bool) TV TD TQ NE b_ g_ j1 j2 x1 x2 y1 y2
    (sdim vdim d1d q1d : nat) sm1 sm2 qx qy c e :
  let D1D := pick TD d1d in
  let Q1D := pick TQ q1d in
  let VDIM := pick TV vdim in
  let SDIM := if GP then sdim else 2%nat in
  (2 <= SDIM <= 3)%nat ->
  (qx < Q1D)%nat -> (qy < Q1D)%nat -> (c < VDIM)%nat -> (e < NE)%nat ->
  (forall dx dy, (dx < D1D)%nat -> (dy < D1D)%nat ->
     Reshape x1 [D1D; D1D; VDIM; NE] [dx; dy; c; e] =
     Reshape x2 [D1D; D1D; VDIM; NE] [dx; dy; c; e]) ->
  (forall r k, (r < SDIM)%nat -> (k < 2)%nat ->
     Reshape j1 [Q1D; Q1D; SDIM; 2; NE]%nat [qx; qy; r; k; e] =
     Reshape j2 [Q1D; Q1D; SDIM; 2; NE]%nat [qx; qy; r; k; e]) ->
  exists y1' y2',
    Derivatives2D L GP TV TD TQ NE b_ g_ j1 x1 y1 sdim vdim d1d q1d sm1
      = Some y1' /\
    Derivatives2D L GP TV TD TQ NE b_ g_ j2 x2 y2 sdim vdim d1d q1d sm2
      = Some y2' /\
    forall d, (d < SDIM)%nat ->
      out2D L Q1D VDIM SDIM NE y1' qx qy c d e =
      out2D L Q1D VDIM SDIM NE y2' qx qy c d e.
Proof.
  intros D1D Q1D VDIM SDIM Hs Hqx Hqy Hc He Hx Hj.
  destruct (@Derivatives2D_spec L GP TV TD TQ NE b_ g_ j1 x1 y1
              sdim vdim d1d q1d sm1 ltac:(fold SDIM; lia))
    as [y1' [E1 [H1 _]]].
  destruct (@Derivatives2D_spec L GP TV TD TQ NE b_ g_ j2 x2 y2
              sdim vdim d1d q1d sm2 ltac:(fold SDIM; lia))
    as [y2' [E2 [H2 _]]].
  fold D1D Q1D VDIM SDIM in H1, H2.
  exists y1', y2'. repeat (split; [assumption|]).
  intros d Hd. rewrite H1, H2 by assumption. f_equal.
  unfold du2D.
  assert (Eu : ref2D_u b_ g_ x1 VDIM D1D Q1D NE e c qx qy =
               ref2D_u b_ g_ x2 VDIM D1D Q1D NE e c qx qy).
  { unfold ref2D_u. apply sum_upto_ext. intros dy Hdy. f_equal.
    apply sum_upto_ext. intros dx Hdx. rewrite Hx by assumption.
    reflexivity. }
  assert (Ev : ref2D_v b_ g_ x1 VDIM D1D Q1D NE e c qx qy =
               ref2D_v b_ g_ x2 VDIM D1D Q1D NE e c qx qy).
  { unfold ref2D_v. apply sum_upto_ext. intros dy Hdy. f_equal.
    apply sum_upto_ext. intros dx Hdx. rewrite Hx by assumption.
    reflexivity. }
  rewrite Eu, Ev. destruct GP; [|reflexivity].
  cbv zeta.
  assert (H23 : SDIM = 2%nat \/ SDIM = 3%nat) by lia.
  destruct H23 as [E|E]; rewrite E in *; simpl Nat.eqb; cbv iota;
    rewrite ?(Hj 0%nat 0%nat), ?(Hj 1%nat 0%nat), ?(Hj 2%nat 0%nat),
      ?(Hj 0%nat 1%nat), ?(Hj 1%nat 1%nat), ?(Hj 2%nat 1%nat) by lia;
    reflexivity.
Qed.

Lemma Derivatives2D_cell_is_local_witness :
  exists y1' y2',
    Derivatives2D byVDIM true 0 0 0 1 b_lin g_lin j_id2
      (buf_of [0; 2; 3; 5]) ones 2 1 2 1 ones = Some y1' /\
    Derivatives2D byVDIM true 0 0 0 1 b_lin g_lin
      (buf_of [1; 0; 0; 1; 8; 8]) (buf_of [0; 2; 3; 5; 9]) g_lin
      2 1 2 1 g_lin = Some y2' /\
    out2D byVDIM 1 1 2 1 y1' 0 0 0 1 0 = out2D byVDIM 1 1 2 1 y2' 0 0 0 1 0.
Proof.
  destruct (@Derivatives2D_cell_is_local byVDIM true 0 0 0 1 b_lin g_lin j_id2
              (buf_of [1; 0; 0; 1; 8; 8]) (buf_of [0; 2; 3; 5])
              (buf_of [0; 2; 3; 5; 9]) ones g_lin 2 1 2 1 ones g_lin 0 0 0 0)
    as [y1' [y2' [E1 [E2 H]]]]; try dims.
  - unfold pick. simpl. intros dx dy Hx Hy.
    destruct dx as [|[|dx]]; [| |lia]; destruct dy as [|[|dy]]; try lia;
      reflexivity.
  - unfold pick. simpl. intros r k Hr Hk.
    destruct r as [|[|r]]; [| |lia]; destruct k as [|[|k]]; try lia;
      reflexivity.
  - exists y1', y2'. repeat (split; [assumption|]). apply H. lia.
Defined.



(** ** Batches of different sizes *)

(** The size of the last index, the number of elements, does not enter an
    offset. *)
Lemma TensorInd_last sizes n m : forall idx,
  TensorInd (sizes ++ [n]) idx = TensorInd (sizes ++ [m]) idx.
Proof.
  induction sizes as [|k sizes IH]; intros [|i js]; simpl; try reflexivity.
  - lia.
  - rewrite IH. reflexivity.
Qed.

Lemma Reshape_last p sizes n m :
  Reshape p (sizes ++ [n]) = Reshape p (sizes ++ [m]).
Proof.
  apply functional_extensionality. intros idx. unfold Reshape.
  rewrite (TensorInd_last sizes n m). reflexivity.
Qed.

Lemma lay_last L qsz vdim sdim n m idx :
  TensorInd (lay L qsz vdim sdim n) idx =
  TensorInd (lay L qsz vdim sdim m) idx.
Proof.
  destruct L; unfold lay.
  - change [vdim; sdim; n] with ([vdim; sdim] ++ [n]).
    change [vdim; sdim; m] with ([vdim; sdim] ++ [m]).
    rewrite !app_assoc. apply TensorInd_last.
  - rewrite !app_assoc. apply TensorInd_last.
Qed.

Lemma du1D_batch GP NE1 NE2 g_ j_ x_ sdim vdim d1d q1d e c q :
  du1D GP NE1 g_ j_ x_ sdim vdim d1d q1d e c q =
  du1D GP NE2 g_ j_ x_ sdim vdim d1d q1d e c q.
Proof.
  unfold du1D, dot1D.
  rewrite (Reshape_last x_ [d1d; vdim] NE1 NE2
           : Reshape x_ [d1d; vdim; NE1] = _).
  rewrite (Reshape_last j_ [q1d; sdim] NE1 NE2
           : Reshape j_ [q1d; sdim; NE1] = _).
  reflexivity.
Qed.

(** X10.  The cells that [Derivatives1D] stores for the first elements do
    not depend on how many elements follow: a run on [NE1] elements and a run
    on [NE2 >= NE1] elements of the same buffers agree on every cell of the
    shape of the shorter run. *)
Theorem Derivatives1D_batch_prefix
    L GP NE1 NE2 g_ j_ x_ y1 y2 (sdim vdim d1d q1d : nat) :
  (sdim <= 3)%nat -> (NE1 <= NE2)%nat ->
  exists y1' y2',
    Derivatives1D L GP NE1 g_ j_ x_ y1 sdim vdim d1d q1d = Some y1' /\
    Derivatives1D L GP NE2 g_ j_ x_ y2 sdim vdim d1d q1d = Some y2' /\
    forall p, (p < volume [q1d; vdim; sdim; NE1])%nat -> y1' p = y2' p.
Proof.
  intros Hs Hle.
  destruct (@Derivatives1D_spec L GP NE1 g_ j_ x_ y1 sdim vdim d1d q1d Hs)
    as [y1' [E1 [H1 _]]].
  destruct (@Derivatives1D_spec L GP NE2 g_ j_ x_ y2 sdim vdim d1d q1d Hs)
    as [y2' [E2 [H2 _]]].
  exists y1', y2'. repeat (split; [assumption|]).
  intros p Hp.
  destruct (@cover1 L _ _ _ _ _ Hp) as [q [c [d [e [Hq [Hc [Hd [He ->]]]]]]]].
  fold (out1D L q1d vdim sdim NE1 y1' q c d e).
  rewrite (lay_last L [q1d] vdim sdim NE1 NE2).
  fold (out1D L q1d vdim sdim NE2 y2' q c d e).
  rewrite H1, H2 by (assumption || lia).
  rewrite (du1D_batch GP NE1 NE2). reflexivity.
Qed.

Lemma Derivatives1D_batch_prefix_witness :
  exists y1' y2',
    Derivatives1D byVDIM true 1 g_lin ones (buf_of [0; 1; 4; 9]) ones
      1 1 2 2 = Some y1' /\
    Derivatives1D byVDIM true 2 g_lin ones (buf_of [0; 1; 4; 9]) g_lin
      1 1 2 2 = Some y2' /\
    y1' 1%nat = y2' 1%nat.
Proof.
  destruct (@Derivatives1D_batch_prefix byVDIM true 1 2 g_lin ones
              (buf_of [0; 1; 4; 9]) ones g_lin 1 1 2 2)
    as [y1' [y2' [E1 [E2 H]]]]; try lia.
  exists y1', y2'. repeat (split; [assumption|]). apply H. simpl. lia.
Defined.

Lemma du2D_batch GP NE1 NE2 b_ g_ j_ x_ SDIM VDIM D1D Q1D e c qx qy :
  du2D GP NE1 b_ g_ j_ x_ SDIM VDIM D1D Q1D e c qx qy =
  du2D GP NE2 b_ g_ j_ x_ SDIM VDIM D1D Q1D e c qx qy.
Proof.
  unfold du2D, ref2D_u, ref2D_v.
  rewrite (Reshape_last x_ [D1D; D1D; VDIM] NE1 NE2
           : Reshape x_ [D1D; D1D; VDIM; NE1] = _).
  rewrite (Reshape_last j_ [Q1D; Q1D; SDIM; 2]%nat NE1 NE2
           : Reshape j_ [Q1D; Q1D; SDIM; 2; NE1]%nat = _).
  reflexivity.
Qed.


(** X11.  The cells that [Derivatives2D] stores for the first elements do
    not depend on how many elements follow. *)
Theorem Derivatives2D_batch_prefix
    L (GP : bool) TV TD TQ NE1 NE2 b_ g_ j_ x_ y1 y2
    (sdim vdim d1d q1d : nat) sm1 sm2 :
  let Q1D := pick TQ q1d in
  let VDIM := pick TV vdim in
  let SDIM := if GP then sdim else 2%nat in
  (SDIM <= 3)%nat -> (NE1 <= NE2)%nat ->
  exists y1' y2',
    Derivatives2D L GP TV TD TQ NE1 b_ g_ j_ x_ y1 sdim vdim d1d q1d sm1
      = Some y1' /\
    Derivatives2D L GP TV TD TQ NE2 b_ g_ j_ x_ y2 sdim vdim d1d q1d sm2
      = Some y2' /\
    forall p, (p < volume [Q1D; Q1D; VDIM; SDIM; NE1])%nat -> y1' p = y2' p.
Proof.
  intros Q1D VDIM SDIM Hs Hle.
  destruct (@Derivatives2D_spec L GP TV TD TQ NE1 b_ g_ j_ x_ y1
              sdim vdim d1d q1d sm1 Hs) as [y1' [E1 [H1 _]]].
  destruct (@Derivatives2D_spec L GP TV TD TQ NE2 b_ g_ j_ x_ y2
              sdim vdim d1d q1d sm2 Hs) as [y2' [E2 [H2 _]]].
  fold Q1D VDIM SDIM in H1, H2.
  exists y1', y2'. repeat (split; [assumption|]).
  intros p Hp.
  destruct (@cover2 L _ _ _ _ _ Hp)
    as [qx [qy [c [d [e [Hqx [Hqy [Hc [Hd [He ->]]]]]]]]]].
  fold (out2D L Q1D VDIM SDIM NE1 y1' qx qy c d e).
  rewrite (lay_last L [Q1D; Q1D] VDIM SDIM NE1 NE2).
  fold (out2D L Q1D VDIM SDIM NE2 y2' qx qy c d e).
  rewrite H1, H2 by (assumption || lia).
  rewrite (du2D_batch GP NE1 NE2). reflexivity.
Qed.

Lemma Derivatives2D_batch_prefix_witness :
  exists y1' y2',
    Derivatives2D byNODES false 0 0 0 1 b_lin g_lin ones
      (buf_of [0; 2; 3; 5; 1; 1; 2; 8]) ones 2 1 2 2 ones = Some y1' /\
    Derivatives2D byNODES false 0 0 0 2 b_lin g_lin ones
      (buf_of [0; 2; 3; 5; 1; 1; 2; 8]) g_lin 2 1 2 2 g_lin = Some y2' /\
    y1' 7%nat = y2' 7%nat.
Proof.
  destruct (@Derivatives2D_batch_prefix byNODES false 0 0 0 1 2 b_lin g_lin
              ones (buf_of [0; 2; 3; 5; 1; 1; 2; 8]) ones g_lin 2 1 2 2
              ones g_lin) as [y1' [y2' [E1 [E2 H]]]]; try lia.
  exists y1', y2'. repeat (split; [assumption|]). apply H. dims.
Defined.



(** ** The chain rule *)









(** ** The shared tiles of the passes *)

Lemma fill2_frame (S : Type) (get : S -> buf) sizes n1 n2
    (ix : nat -> nat -> list nat) (F : list nat -> R)
    (body : nat -> nat -> S -> S) :
  (forall i k, (i < n1)%nat -> (k < n2)%nat -> in_shape sizes (ix i k)) ->
  (forall i k s, (i < n1)%nat -> (k < n2)%nat ->
     get (body i k s) = upd (get s) (TensorInd sizes (ix i k)) (F (ix i k))) ->
  forall s p, (volume sizes <= p)%nat ->
    get (for_loop n1 (fun i s => for_loop n2 (fun k s => body i k s) s) s) p
    = get s p.
Proof.
  intros Hsh Hb s p Hp.
  assert (H : fills get
            (fun p => exists i, (i < n1)%nat /\ exists k, (k < n2)%nat /\
                      p = TensorInd sizes (ix i k))
            (fun p => F (TensorDec sizes p))
            (for_loop n1 (fun i s => for_loop n2 (fun k s => body i k s) s))).
  { apply fills_for. intros i' Hi'. apply fills_for. intros k' Hk'.
    apply fills_store. intros s'.
    rewrite TensorDec_Ind by (apply Hsh; assumption).
    apply Hb; assumption. }
  destruct (H s p) as [_ Hn]. apply Hn.
  intros [i [Hi [k [Hk ->]]]].
  pose proof (TensorInd_lt sizes (ix i k) (Hsh i k Hi Hk)). lia.
Qed.


(** X17.  The first pass of [Derivatives2D] leaves in the tiles the
    contraction over [dx]: [DQ0(dy,qx)] is the sum of [X(dx,dy) B(dx,qx)] and
    [DQ1(dy,qx)] the sum of [X(dx,dy) G(dx,qx)].  It overwrites every cell of
    the [D1D x Q1D] tiles and touches no cell from offset [D1D * Q1D] on, so
    this is the room the tiles need. *)
Theorem Derivatives2D_pass1_tiles D1D Q1D (X B G : list nat -> R) s_DQ :
  let r := Derivatives2D_pass1 D1D Q1D X B G s_DQ in
  (forall dy qx, (dy < D1D)%nat -> (qx < Q1D)%nat ->
     Reshape (fst r) [D1D; Q1D] [dy; qx] =
       sum_upto D1D (fun dx => X [dx; dy] * B [dx; qx]) /\
     Reshape (snd r) [D1D; Q1D] [dy; qx] =
       sum_upto D1D (fun dx => X [dx; dy] * G [dx; qx])) /\
  (forall p, (D1D * Q1D <= p)%nat ->
     fst r p = fst s_DQ p /\ snd r p = snd s_DQ p).
Proof.
  intros r. split.
  - intros dy qx Hy Hx. split.
    + apply pass1_2D_DQ0; assumption.
    + apply pass1_2D_DQ1; assumption.
  - intros p Hp.
    assert (Hv : (volume [D1D; Q1D] <= p)%nat)
      by (unfold volume; simpl; lia).
    unfold r, Derivatives2D_pass1. split.
    + apply (fill2_frame (@fst buf buf) [D1D; Q1D] (fun dy qx => [dy; qx])
               (fun idx => match idx with
                           | [dy; qx] =>
                               sum_upto D1D (fun dx => X [dx; dy] * B [dx; qx])
                           | _ => 0
                           end)); try assumption.
      * intros; simpl; tauto.
      * intros i k s' _ _. cbv zeta. rewrite acc2. reflexivity.
    + apply (fill2_frame (@snd buf buf) [D1D; Q1D] (fun dy qx => [dy; qx])
               (fun idx => match idx with
                           | [dy; qx] =>
                               sum_upto D1D (fun dx => X [dx; dy] * G [dx; qx])
                           | _ => 0
                           end)); try assumption.
      * intros; simpl; tauto.
      * intros i k s' _ _. cbv zeta. rewrite acc2. reflexivity.
Qed.

Lemma Derivatives2D_pass1_tiles_witness :
  let r := Derivatives2D_pass1 2 3 (Reshape (buf_of [0; 2; 3; 5]) [2; 2]%nat)
             (Reshape b_lin [2; 3]%nat) (Reshape g_lin [2; 3]%nat)
             (ones, g_lin) in
  (Reshape (fst r) [2; 3]%nat [1; 2]%nat =
     sum_upto 2 (fun dx =>
       Reshape (buf_of [0; 2; 3; 5]) [2; 2]%nat [dx; 1]%nat
       * Reshape b_lin [2; 3]%nat [dx; 2]%nat) /\
   Reshape (snd r) [2; 3]%nat [1; 2]%nat =
     sum_upto 2 (fun dx =>
       Reshape (buf_of [0; 2; 3; 5]) [2; 2]%nat [dx; 1]%nat
       * Reshape g_lin [2; 3]%nat [dx; 2]%nat)) /\
  fst r 6%nat = 1 /\ snd r 6%nat = 0.
Proof.
  intros r.
  destruct (Derivatives2D_pass1_tiles 2 3
              (Reshape (buf_of [0; 2; 3; 5]) [2; 2]%nat)
              (Reshape b_lin [2; 3]%nat) (Reshape g_lin [2; 3]%nat)
              (ones, g_lin)) as [Hin Hout].
  split.
  - apply Hin; lia.
  - destruct (Hout 6%nat ltac:(lia)) as [A B]. split; [exact A|exact B].
Defined.





(** ** Exchange of the axes *)



(** ** Exactness on affine fields *)











